(** * The LRU proxy cache of [proxy_cache.c]

    A shallow embedding of the cache engine: the global [g_cache], the
    heap of [cache_element] structs it points into, the recency-list
    primitives, eviction, [cache_init], [cache_destroy], [cache_find]
    and [cache_add].

    Pointers to [cache_element] are addresses into an explicit heap, so
    that the aliasing between the index, the list links and the
    [head]/[tail] fields is the one of the C program, and so that a
    dereference of a freed struct is visible as undefined behaviour.
    The [url] and [data] buffers have one owner each and are kept by
    value in the struct that owns them; a counter of live buffers
    follows [strdup], [malloc] and [free], so that a leak shows.
    [size_t] is 64 bits wide; its arithmetic wraps. What the allocator
    returns is an input of [cache_add], and its [while] loops take a
    bound on the number of iterations. *)

From stdpp Require Import gmap strings list fin_maps.
From Stdlib Require Import ZArith Lia.

Open Scope Z_scope.

(* [set_solver] clears hypotheses by name, some of which are gone. *)
#[local] Set Warnings "-clear-no-such-hyp".

(** ** Constants and machine arithmetic *)

(** [#define MAX_CACHE_SIZE 100] in [proxy_cache.h]. *)
Definition MAX_CACHE_SIZE : Z := 100.

(** [size_t] values are integers modulo [2^64]. *)
Definition SIZE_MOD : Z := 2 ^ 64.

Definition size_add (a b : Z) : Z := (a + b) mod SIZE_MOD.
Definition size_sub (a b : Z) : Z := (a - b) mod SIZE_MOD.

(** ** Data model *)

(** Addresses of heap-allocated [cache_element] structs; [None] is [NULL]. *)
Abbreviation ptr := positive.

Abbreviation byte := Byte.byte.

(** A [char*] field that owns its buffer: [NULL], a live buffer with its
    contents, or a pointer whose buffer has been passed to [free]. *)
Inductive buffer (A : Type) : Type :=
| Null
| Live (a : A)
| Freed.
Arguments Null {A}.
Arguments Live {A} a.
Arguments Freed {A}.

(** [struct cache_element] of [proxy_cache.h]. *)
Record cache_element : Type := mk_cache_element {
  url : buffer string;
  data : buffer (list byte);
  len : Z;
  next : option ptr;
  prev : option ptr
}.

(** The heap of structs, the number of [char] buffers that [strdup]
    and [malloc] have handed out and [free] has not yet taken back,
    and the fields of [g_cache] ([proxy_cache_t]): [map], [head],
    [tail], [current_size], [mutex]. *)
Record state : Type := mk_state {
  heap : gmap ptr cache_element;
  heap_buffers : nat;
  g_cache_map : gmap string ptr;
  g_cache_head : option ptr;
  g_cache_tail : option ptr;
  g_cache_current_size : Z;
  g_cache_mutex : bool
}.

(** ** Outcomes and the monad of cache operations *)

Inductive outcome (A : Type) : Type :=
| Done (a : A)
| Undefined   (* a freed or null pointer is used: undefined behaviour *)
| Blocked     (* [pthread_mutex_lock] on a held mutex does not return *)
| OutOfFuel.  (* the loop bound of the model is exhausted *)
Arguments Done {A} a.
Arguments Undefined {A}.
Arguments Blocked {A}.
Arguments OutOfFuel {A}.

Definition cache_op (A : Type) : Type := state → outcome (A * state).

#[global] Instance cache_op_ret : MRet cache_op := λ A a s, Done (a, s).

#[global] Instance cache_op_bind : MBind cache_op := λ A B f m s,
  match m s with
  | Done (a, s') => f a s'
  | Undefined => Undefined
  | Blocked => Blocked
  | OutOfFuel => OutOfFuel
  end.

Definition undefined {A} : cache_op A := λ _, Undefined.

(** *** Accessors for the fields of [g_cache] *)

Definition get_map : cache_op (gmap string ptr) := λ s, Done (g_cache_map s, s).
Definition get_head : cache_op (option ptr) := λ s, Done (g_cache_head s, s).
Definition get_tail : cache_op (option ptr) := λ s, Done (g_cache_tail s, s).
Definition get_current_size : cache_op Z := λ s, Done (g_cache_current_size s, s).

Definition with_heap (h : gmap ptr cache_element) (s : state) : state :=
  mk_state h (heap_buffers s) (g_cache_map s) (g_cache_head s) (g_cache_tail s)
           (g_cache_current_size s) (g_cache_mutex s).
Definition with_map (m : gmap string ptr) (s : state) : state :=
  mk_state (heap s) (heap_buffers s) m (g_cache_head s) (g_cache_tail s)
           (g_cache_current_size s) (g_cache_mutex s).
Definition with_head (h : option ptr) (s : state) : state :=
  mk_state (heap s) (heap_buffers s) (g_cache_map s) h (g_cache_tail s)
           (g_cache_current_size s) (g_cache_mutex s).
Definition with_tail (t : option ptr) (s : state) : state :=
  mk_state (heap s) (heap_buffers s) (g_cache_map s) (g_cache_head s) t
           (g_cache_current_size s) (g_cache_mutex s).
Definition with_current_size (n : Z) (s : state) : state :=
  mk_state (heap s) (heap_buffers s) (g_cache_map s) (g_cache_head s)
           (g_cache_tail s) n (g_cache_mutex s).
Definition with_mutex (b : bool) (s : state) : state :=
  mk_state (heap s) (heap_buffers s) (g_cache_map s) (g_cache_head s)
           (g_cache_tail s) (g_cache_current_size s) b.
Definition with_heap_buffers (n : nat) (s : state) : state :=
  mk_state (heap s) n (g_cache_map s) (g_cache_head s)
           (g_cache_tail s) (g_cache_current_size s) (g_cache_mutex s).

Definition set_map (m : gmap string ptr) : cache_op unit := λ s, Done (tt, with_map m s).
Definition set_head (h : option ptr) : cache_op unit := λ s, Done (tt, with_head h s).
Definition set_tail (t : option ptr) : cache_op unit := λ s, Done (tt, with_tail t s).
Definition set_current_size (n : Z) : cache_op unit :=
  λ s, Done (tt, with_current_size n s).

(** *** Struct access through a pointer *)

(** Reading [*p]: undefined when [p] does not point to a live struct. *)
Definition load (p : ptr) : cache_op cache_element := λ s,
  match heap s !! p with
  | Some e => Done (e, s)
  | None => Undefined
  end.

(** Writing [*p]. *)
Definition store (p : ptr) (e : cache_element) : cache_op unit := λ s,
  match heap s !! p with
  | Some _ => Done (tt, with_heap (<[p := e]> (heap s)) s)
  | None => Undefined
  end.

Definition set_url (u : buffer string) (e : cache_element) : cache_element :=
  mk_cache_element u (data e) (len e) (next e) (prev e).
Definition set_data (d : buffer (list byte)) (e : cache_element) : cache_element :=
  mk_cache_element (url e) d (len e) (next e) (prev e).
Definition set_len (n : Z) (e : cache_element) : cache_element :=
  mk_cache_element (url e) (data e) n (next e) (prev e).
Definition set_next (q : option ptr) (e : cache_element) : cache_element :=
  mk_cache_element (url e) (data e) (len e) q (prev e).
Definition set_prev (q : option ptr) (e : cache_element) : cache_element :=
  mk_cache_element (url e) (data e) (len e) (next e) q.

(** [p->field = v]. *)
Definition write (p : ptr) (f : cache_element → cache_element) : cache_op unit :=
  e ← load p; store p (f e).

(** *** The C allocator *)

(** [free(b)] for an owned buffer: a no-op on [NULL], undefined on a
    buffer that was already freed. *)
Definition free_buffer {A} (b : buffer A) : cache_op (buffer A) :=
  match b with
  | Null => mret Null
  | Live _ => λ s, Done (Freed, with_heap_buffers (Nat.pred (heap_buffers s)) s)
  | Freed => undefined
  end.

(** [!b] for a pointer field. *)
Definition is_null {A} (b : buffer A) : bool :=
  match b with
  | Null => true
  | _ => false
  end.

(** [free(p)] for a struct. *)
Definition free_element (p : ptr) : cache_op unit := λ s,
  match heap s !! p with
  | Some _ => Done (tt, with_heap (delete p (heap s)) s)
  | None => Undefined
  end.

(** [calloc(1, sizeof(cache_element))]: all fields zero. *)
Definition zero_element : cache_element := mk_cache_element Null Null 0 None None.

Definition calloc_element (ok : bool) : cache_op (option ptr) := λ s,
  if ok then
    let p := fresh (dom (heap s)) in
    Done (Some p, with_heap (<[p := zero_element]> (heap s)) s)
  else Done (None, s).

(** [strdup(url)]. *)
Definition strdup (ok : bool) (k : string) : cache_op (buffer string) := λ s,
  if ok then Done (Live k, with_heap_buffers (S (heap_buffers s)) s)
  else Done (Null, s).

(** [malloc(length)]: the contents are not read before [memcpy] fills them. *)
Definition malloc (ok : bool) (length : Z) : cache_op (buffer (list byte)) := λ s,
  if ok then
    Done (Live (replicate (Z.to_nat length) Byte.x00),
          with_heap_buffers (S (heap_buffers s)) s)
  else Done (Null, s).

(** [memcpy(dst, src, n)]: both buffers must hold [n] bytes. *)
Definition memcpy (dst : buffer (list byte)) (src : list byte) (n : Z)
  : cache_op (buffer (list byte)) :=
  match dst with
  | Live d =>
      if decide (n ≤ Z.of_nat (length d) ∧ n ≤ Z.of_nat (length src)) then
        mret (Live (take (Z.to_nat n) src ++ drop (Z.to_nat n) d))
      else undefined
  | _ => undefined
  end.

(** What the three allocations of [cache_add] return: [calloc] of the
    struct, [strdup] of the key, [malloc] of the payload. *)
Record alloc_results : Type := mk_alloc_results {
  calloc_ok : bool;
  strdup_ok : bool;
  malloc_ok : bool
}.

Definition all_ok : alloc_results := mk_alloc_results true true true.

(** *** The mutex *)

Definition mutex_lock : cache_op unit := λ s,
  if g_cache_mutex s then Blocked else Done (tt, with_mutex true s).

Definition mutex_unlock : cache_op unit := λ s, Done (tt, with_mutex false s).

(** ** The key-value index ([hashmap.h])

    The hash map is a separate component whose source is not part of
    the cache engine; the engine configures it with the destructors
    [free] (for keys) and [free_cache_element] (for values). *)

(** [free_cache_element]: destroy a cache element completely. *)
Definition free_cache_element (data_ : option ptr) : cache_op unit :=
  match data_ with
  | None => mret tt
  | Some p =>
      e ← load p;
      d ← free_buffer (data e);
      write p (set_data d);;
      free_element p
  end.

(** Modelled from the spec: [map_find] of the missing [hashmap.h],
    "find(key) -> optional entry reference". *)
Definition map_find (key : string) : cache_op (option ptr) :=
  m ← get_map; mret (m !! key).

(** Modelled from the spec: [map_insert] of the missing [hashmap.h],
    "insert(key, entry)"; the index stores the key pointer it is given,
    which is the [url] field of the entry. Inserting under a key read
    through a null or freed [char*] is undefined. *)
Definition map_insert (key : buffer string) (value : ptr) : cache_op unit :=
  match key with
  | Live k => m ← get_map; set_map (<[k := value]> m)
  | _ => undefined
  end.

(** Modelled from the spec: [map_erase] of the missing [hashmap.h],
    "erase(key) (removes the mapping and invokes cleanup: frees the
    stored key copy and invokes entry destruction)". The stored key is
    the [url] buffer of the entry, released by the key destructor
    [free]; the entry is destroyed by [free_cache_element]. Erasing a
    key read through a null or freed [char*] is undefined. *)
Definition map_erase (key : buffer string) : cache_op unit :=
  match key with
  | Live k =>
      m ← get_map;
      match m !! k with
      | None => mret tt
      | Some p =>
          set_map (delete k m);;
          e ← load p;
          u ← free_buffer (url e);
          write p (set_url u);;
          free_cache_element (Some p)
      end
  | _ => undefined
  end.

(** Modelled from the spec: [map_destroy] of the missing [hashmap.h],
    "destroy() (invokes both destructors for every remaining
    element)". For every mapping the key destructor [free] releases
    the stored key, which is the [url] buffer of the entry, and the
    value destructor [free_cache_element] destroys the entry; the
    index is empty afterwards. *)
Definition map_destroy : cache_op unit :=
  m ← get_map;
  foldr (λ kp rest,
           e ← load kp.2;
           u ← free_buffer (url e);
           write kp.2 (set_url u);;
           free_cache_element (Some kp.2);;
           rest)
        (set_map ∅) (map_to_list m).

(** Modelled from the spec: [map_create] of the missing [hashmap.h],
    "create(initial_capacity, load_factor, key_destructor,
    value_destructor)": an empty index, or [NULL] when "the underlying
    structure cannot be allocated". *)
Definition map_create (ok : bool) : option (gmap string ptr) :=
  if ok then Some ∅ else None.

(** ** Recency-list primitives *)

(** [detach_node_unlocked]. *)
Definition detach_node_unlocked (element : option ptr) : cache_op unit :=
  match element with
  | None => mret tt
  | Some p =>
      e ← load p;
      match prev e with
      | Some q => write q (set_next (next e))
      | None => set_head (next e)
      end;;
      e ← load p;
      match next e with
      | Some q => write q (set_prev (prev e))
      | None => set_tail (prev e)
      end
  end.

(** [attach_node_to_head_unlocked]. *)
Definition attach_node_to_head_unlocked (element : option ptr) : cache_op unit :=
  match element with
  | None => mret tt
  | Some p =>
      h ← get_head;
      write p (set_next h);;
      write p (set_prev None);;
      h ← get_head;
      match h with
      | Some q => write q (set_prev (Some p))
      | None => mret tt
      end;;
      set_head (Some p);;
      t ← get_tail;
      match t with
      | None => set_tail (Some p)
      | Some _ => mret tt
      end
  end.

(** [remove_lru_element_unlocked]. *)
Definition remove_lru_element_unlocked : cache_op unit :=
  lru_element ← get_tail;
  match lru_element with
  | None => mret tt
  | Some p =>
      detach_node_unlocked (Some p);;
      e ← load p;
      n ← get_current_size;
      set_current_size (size_sub n (len e));;
      e ← load p;
      map_erase (url e)
  end.

(** ** Public operations *)

(** [cache_init], from an empty heap. *)
Definition cache_init : state :=
  mk_state ∅ 0 ∅ None None 0 false.

(** [cache_init] on a memory that may hold structs and buffers: the
    fields of [g_cache] are reset, the mutex is initialised and a new
    index is created. [None] stands for [exit(EXIT_FAILURE)], taken
    when [map_create] returns [NULL]. *)
Definition cache_init_at (map_ok : bool) (s : state) : option state :=
  m ← map_create map_ok;
  Some (mk_state (heap s) (heap_buffers s) m None None 0 false).

(** [cache_destroy]. After it [g_cache.map] is [NULL], for which the
    empty index stands, and the mutex is destroyed: the next call must
    be [cache_init]. *)
Definition cache_destroy : cache_op unit :=
  mutex_lock;;
  map_destroy;;
  set_head None;;
  set_tail None;;
  set_current_size 0;;
  set_map ∅;;
  mutex_unlock.

(** [cache_find]. *)
Definition cache_find (url_ : option string) : cache_op (option ptr) :=
  match url_ with
  | None => mret None
  | Some k =>
      mutex_lock;;
      element ← map_find k;
      match element with
      | Some p =>
          detach_node_unlocked (Some p);;
          attach_node_to_head_unlocked (Some p)
      | None => mret tt
      end;;
      mutex_unlock;;
      mret element
  end.

(** The loop
    [while (g_cache.current_size + length > MAX_CACHE_SIZE)
       remove_lru_element_unlocked();]
    of [cache_add], with a bound on the number of iterations. *)
Fixpoint evict_loop (fuel : nat) (length : Z) : cache_op unit := λ s,
  if MAX_CACHE_SIZE <? size_add (g_cache_current_size s) length then
    match fuel with
    | O => OutOfFuel
    | S fuel' => (remove_lru_element_unlocked;; evict_loop fuel' length) s
    end
  else Done (tt, s).

(** The runs of that loop that come to an end, with their number of
    iterations: every iteration finds the loop condition true, in a
    state that satisfies [P], and calls [remove_lru_element_unlocked];
    the run ends when the condition is false. *)
Inductive evict_run (length : Z) (P : state → Prop) : state → nat → state → Prop :=
| evict_run_stop s :
    (MAX_CACHE_SIZE <? size_add (g_cache_current_size s) length) = false →
    evict_run length P s 0 s
| evict_run_step s s1 n s' :
    (MAX_CACHE_SIZE <? size_add (g_cache_current_size s) length) = true →
    P s →
    remove_lru_element_unlocked s = Done (tt, s1) →
    evict_run length P s1 n s' →
    evict_run length P s (S n) s'.

(** [cache_add], CASE 1: the item already exists. *)
Definition cache_add_update (fuel : nat) (a : alloc_results)
    (existing_element : ptr) (data_ : list byte) (length : Z) : cache_op unit :=
  e ← load existing_element;
  n ← get_current_size;
  set_current_size (size_sub n (len e));;
  evict_loop fuel length;;
  detach_node_unlocked (Some existing_element);;
  e ← load existing_element;
  d ← free_buffer (data e);
  write existing_element (set_data d);;
  b ← malloc (malloc_ok a) length;
  write existing_element (set_data b);;
  e ← load existing_element;
  if is_null (data e) then
    e ← load existing_element;
    map_erase (url e);;
    mutex_unlock
  else
    e ← load existing_element;
    d ← memcpy (data e) data_ length;
    write existing_element (set_data d);;
    write existing_element (set_len length);;
    n ← get_current_size;
    set_current_size (size_add n length);;
    attach_node_to_head_unlocked (Some existing_element);;
    mutex_unlock.

(** [cache_add], CASE 2: the item is new. *)
Definition cache_add_insert (fuel : nat) (a : alloc_results)
    (url_ : string) (data_ : list byte) (length : Z) : cache_op unit :=
  evict_loop fuel length;;
  new_element ← calloc_element (calloc_ok a);
  match new_element with
  | None => mutex_unlock
  | Some p =>
      u ← strdup (strdup_ok a) url_;
      write p (set_url u);;
      b ← malloc (malloc_ok a) length;
      write p (set_data b);;
      e ← load p;
      if is_null (url e) || is_null (data e) then
        u ← free_buffer (url e);
        write p (set_url u);;
        e ← load p;
        d ← free_buffer (data e);
        write p (set_data d);;
        free_element p;;
        mutex_unlock
      else
        d ← memcpy (data e) data_ length;
        write p (set_data d);;
        write p (set_len length);;
        attach_node_to_head_unlocked (Some p);;
        e ← load p;
        map_insert (url e) p;;
        n ← get_current_size;
        set_current_size (size_add n length);;
        mutex_unlock
  end.

(** [cache_add]. *)
Definition cache_add (fuel : nat) (a : alloc_results)
    (url_ : option string) (data_ : option (list byte)) (length : Z)
  : cache_op unit :=
  match url_, data_ with
  | Some k, Some d =>
      if (length =? 0) || (MAX_CACHE_SIZE <? length) then mret tt
      else
        mutex_lock;;
        existing_element ← map_find k;
        match existing_element with
        | Some p => cache_add_update fuel a p d length
        | None => cache_add_insert fuel a k d length
        end
  | _, _ => mret tt
  end.

(** ** The abstract view: the recency list as a list of entries *)

(** One cached object: the address of its struct, its key and its
    payload bytes. *)
Record entry : Type := mk_entry {
  e_ptr : ptr;
  e_key : string;
  e_bytes : list byte
}.

Definition e_len (x : entry) : Z := Z.of_nat (length (e_bytes x)).

(** Sum of the payload sizes of a list of entries. *)
Definition total (al : list entry) : Z := foldr (λ x acc, e_len x + acc) 0 al.

(** The struct that represents entry [x] between the neighbours [pv]
    and [nx]. *)
Definition node (x : entry) (nx pv : option ptr) : cache_element :=
  mk_cache_element (Live (e_key x)) (Live (e_bytes x)) (e_len x) nx pv.

Definition first_ptr (al : list entry) (dflt : option ptr) : option ptr :=
  match al with
  | [] => dflt
  | x :: _ => Some (e_ptr x)
  end.

Definition last_ptr (al : list entry) (dflt : option ptr) : option ptr :=
  match last al with
  | None => dflt
  | Some x => Some (e_ptr x)
  end.

(** A doubly-linked segment: the entries of [al], head first, are
    chained through [next] and [prev], coming from [pv] and leading
    to [nx]. *)
Fixpoint dseg (h : gmap ptr cache_element) (pv : option ptr)
    (al : list entry) (nx : option ptr) : Prop :=
  match al with
  | [] => True
  | x :: al' =>
      h !! e_ptr x = Some (node x (first_ptr al' nx) pv) ∧
      dseg h (Some (e_ptr x)) al' nx
  end.

(** The recency list of the state is [al], most recently used first. *)
Record linked (s : state) (al : list entry) : Prop := mk_linked {
  linked_nodup : NoDup (e_ptr <$> al);
  linked_head : g_cache_head s = first_ptr al None;
  linked_tail : g_cache_tail s = last_ptr al None;
  linked_dseg : dseg (heap s) None al None
}.

(** The index that maps the key of every entry to its struct. *)
Definition index_of (al : list entry) : gmap string ptr :=
  list_to_map ((λ x, (e_key x, e_ptr x)) <$> al).

(** The state represents the entries [al]: they form the recency list,
    they are the only live structs, the live buffers are their keys
    and payloads, and the index holds exactly them. *)
Record rep (s : state) (al : list entry) : Prop := mk_rep {
  rep_linked : linked s al;
  rep_keys : NoDup (e_key <$> al);
  rep_dom : dom (heap s) = list_to_set (e_ptr <$> al);
  rep_buffers : heap_buffers s = (2 * length al)%nat;
  rep_map : g_cache_map s = index_of al
}.

(** The invariant that holds between public operations. *)
Record Inv (s : state) (al : list entry) : Prop := mk_Inv {
  inv_rep : rep s al;
  inv_pos : Forall (λ x, 0 < e_len x) al;
  inv_size : g_cache_current_size s = total al;
  inv_cap : total al ≤ MAX_CACHE_SIZE;
  inv_mutex : g_cache_mutex s = false
}.

(** A state in which the eviction loop runs one more iteration: it
    represents a non-empty prefix [l ++ [y]] of the recency list [al]
    the loop started from, and with [c] bytes missing from
    [current_size] the new payload does not fit. *)
Definition evicting (length c : Z) (al : list entry) (s : state) : Prop :=
  ∃ l y rest,
    al = (l ++ [y]) ++ rest ∧
    rep s (l ++ [y]) ∧
    MAX_CACHE_SIZE < total (l ++ [y]) - c + length.



(** The state in which the update path of [cache_add] enters its
    eviction loop: the lock is held and the old size of the updated
    entry has been subtracted. *)
Definition update_start (s : state) (old_len : Z) : state :=
  with_current_size (size_sub (g_cache_current_size s) old_len)
    (with_mutex true s).

(** An operation releases the lock on every path on which it returns. *)
Definition releases {A} (m : cache_op A) : Prop :=
  ∀ s r s', m s = Done (r, s') → g_cache_mutex s' = false.

(** Sum of the [len] fields of the structs reachable from the index. *)
Definition index_total (s : state) : Z :=
  map_fold (λ _ p acc,
              match heap s !! p with
              | Some e => len e + acc
              | None => acc
              end) 0 (g_cache_map s).

(** The payload buffer of the struct at [p], if [p] is live. *)
Definition payload_of (s : state) (p : ptr) : option (buffer (list byte)) :=
  data <$> heap s !! p.

(** [found->len] and [found->data] for the result of [cache_find]. *)
Definition read_entry (r : option ptr)
  : cache_op (option (Z * buffer (list byte))) := λ s,
  Done (p ← r; e ← heap s !! p; Some (len e, data e), s).

(** [r != NULL] for the result of [cache_find]. *)
Definition found (r : option ptr) : bool :=
  match r with
  | Some _ => true
  | None => false
  end.

(** [n] successive calls [cache_find(url)], with the results in order. *)
Fixpoint cache_find_n (n : nat) (url_ : option string)
  : cache_op (list (option ptr)) :=
  match n with
  | O => mret []
  | S n' =>
      r ← cache_find url_;
      rs ← cache_find_n n' url_;
      mret (r :: rs)
  end.

(** ** Clients of the public interface *)

(** One call of a client: [cache_find(url)] with the result dropped,
    or [cache_add(url, data, length)] with what its allocations
    return. *)
Inductive call : Type :=
| Find (url_ : option string)
| Add (a : alloc_results) (url_ : option string)
      (data_ : option (list byte)) (length : Z).

(** What C asks of the arguments: [length] is a [size_t], and [data],
    when it is not null, points to at least [length] readable bytes. *)
Definition call_ok (c : call) : Prop :=
  match c with
  | Find _ => True
  | Add _ _ data_ length =>
      0 ≤ length ∧
      match data_ with
      | Some d => length ≤ Z.of_nat (List.length d)
      | None => True
      end
  end.

Definition run_call (fuel : nat) (c : call) : cache_op unit :=
  match c with
  | Find url_ => cache_find url_;; mret tt
  | Add a url_ data_ length => cache_add fuel a url_ data_ length
  end.

(** The calls of [cs], one after the other. *)
Fixpoint run_calls (fuel : nat) (cs : list call) : cache_op unit :=
  match cs with
  | [] => mret tt
  | c :: cs' => run_call fuel c;; run_calls fuel cs'
  end.




(** ** The cache seen as a finite map

    The map from keys to payloads that a list of entries stands for,
    and the effect that a call has on such a map when nothing needs to
    be evicted: a valid [cache_add] binds the key to the first [length]
    bytes of the payload; when an allocation fails, an absent key stays
    absent and a present key is removed. *)





(** ** Walking the recency list

    The addresses met from [p] on by following [link], which is [next]
    or [prev], through at most [fuel] live structs. *)


(** ** A concrete cache

    The cache after [cache_add("a", .., 30)] and [cache_add("b", .., 60)]
    on an empty cache: "b" is the most recently used entry, "a" the
    least recently used one, and 90 of the 100 bytes are taken. *)

Definition payload (n : nat) : list byte := replicate n Byte.x41.

Definition entry_a : entry := mk_entry 1 "a" (payload 30).
Definition entry_b : entry := mk_entry 2 "b" (payload 60).

Definition state_ba : state :=
  mk_state
    (<[1%positive := node entry_a None (Some 2%positive)]>
       (<[2%positive := node entry_b (Some 1%positive) None]> ∅))
    4
    (<["a" := 1%positive]> (<["b" := 2%positive]> ∅))
    (Some 2%positive) (Some 1%positive) 90 false.

(** [state_ba] after [detach_node_unlocked] of "a": the list holds "b"
    alone, and the struct of "a" is live with the links it had. *)
Definition state_b_a_detached : state :=
  mk_state
    (<[1%positive := node entry_a None (Some 2%positive)]>
       (<[2%positive := node entry_b None None]> ∅))
    4
    (<["a" := 1%positive]> (<["b" := 2%positive]> ∅))
    (Some 2%positive) (Some 2%positive) 90 false.

(** Three clients: one that mixes valid and invalid calls, failed
    allocations and an update; one that adds 100 bytes in all; one
    that adds every key once. *)
Definition calls_mixed : list call :=
  [Add all_ok (Some "a") (Some (payload 30)) 30;
   Find (Some "a");
   Add all_ok (Some "b") None 60;
   Add (mk_alloc_results true false true) (Some "b") (Some (payload 60)) 60;
   Add all_ok (Some "a") (Some (payload 100)) 100].



(** ** Lemmas on segments *)

Section Segments.
Implicit Types (h : gmap ptr cache_element) (al : list entry).

Lemma first_ptr_app al bl d :
  first_ptr (al ++ bl) d = first_ptr al (first_ptr bl d).
Proof. by destruct al. Qed.

Lemma last_ptr_app al bl d :
  last_ptr (al ++ bl) d = last_ptr bl (last_ptr al d).
Proof.
  unfold last_ptr. rewrite last_app. by destruct (last bl).
Qed.

Lemma last_ptr_snoc al x d : last_ptr (al ++ [x]) d = Some (e_ptr x).
Proof. by rewrite last_ptr_app. Qed.

Lemma last_ptr_cons x al d :
  last_ptr (x :: al) d = last_ptr al (Some (e_ptr x)).
Proof. apply (last_ptr_app [x] al d). Qed.

Lemma dseg_insert_ne h pv al nx q e :
  q ∉ e_ptr <$> al → dseg h pv al nx → dseg (<[q := e]> h) pv al nx.
Proof.
  revert pv. induction al as [|x al IH]; intros pv Hq; [done|].
  simpl in *. apply not_elem_of_cons in Hq as [Hne Hq].
  intros [Hx Hal]. split; [by rewrite lookup_insert_ne|by apply IH].
Qed.

Lemma dseg_delete_ne h pv al nx q :
  q ∉ e_ptr <$> al → dseg h pv al nx → dseg (delete q h) pv al nx.
Proof.
  revert pv. induction al as [|x al IH]; intros pv Hq; [done|].
  simpl in *. apply not_elem_of_cons in Hq as [Hne Hq].
  intros [Hx Hal]. split; [by rewrite lookup_delete_ne|by apply IH].
Qed.

Lemma dseg_app h pv al bl nx :
  dseg h pv (al ++ bl) nx ↔
  dseg h pv al (first_ptr bl nx) ∧ dseg h (last_ptr al pv) bl nx.
Proof.
  revert pv. induction al as [|x al IH]; intros pv; simpl.
  - unfold last_ptr. simpl. tauto.
  - rewrite IH, first_ptr_app, last_ptr_cons. tauto.
Qed.

Lemma dseg_lookup h pv al x bl nx :
  dseg h pv (al ++ x :: bl) nx →
  h !! e_ptr x = Some (node x (first_ptr bl nx) (last_ptr al pv)).
Proof. rewrite dseg_app. simpl. tauto. Qed.

(** Redirecting the [next] link of the last entry of a segment. *)
Lemma dseg_set_next h pv al y nx nx' :
  NoDup (e_ptr <$> al ++ [y]) →
  dseg h pv (al ++ [y]) nx →
  dseg (<[e_ptr y := node y nx' (last_ptr al pv)]> h) pv (al ++ [y]) nx'.
Proof.
  rewrite fmap_app. simpl. intros Hnd.
  apply NoDup_app in Hnd as (_ & Hdisj & _).
  rewrite !dseg_app. simpl. intros (Hal & Hy & _).
  split; [|by rewrite lookup_insert_eq].
  apply dseg_insert_ne; [|done].
  intros Hin. apply (Hdisj _ Hin). set_solver.
Qed.

(** Redirecting the [prev] link of the first entry of a segment. *)
Lemma dseg_set_prev h pv al z nx pv' :
  NoDup (e_ptr <$> z :: al) →
  dseg h pv (z :: al) nx →
  dseg (<[e_ptr z := node z (first_ptr al nx) pv']> h) pv' (z :: al) nx.
Proof.
  simpl. intros Hnd [Hz Hal]. apply NoDup_cons in Hnd as [Hni _].
  split; [by rewrite lookup_insert_eq|by apply dseg_insert_ne].
Qed.

Lemma dseg_live h pv al nx p :
  dseg h pv al nx → p ∈ e_ptr <$> al → is_Some (h !! p).
Proof.
  revert pv. induction al as [|x al IH]; intros pv; simpl.
  - intros _ Hin. by apply elem_of_nil in Hin.
  - intros [Hx Hal] [->|Hin]%elem_of_cons; eauto.
Qed.
End Segments.

(** ** Symbolic execution of cache operations *)

Arguments detach_node_unlocked : simpl never.
Arguments attach_node_to_head_unlocked : simpl never.
Arguments remove_lru_element_unlocked : simpl never.
Arguments free_cache_element : simpl never.
Arguments map_erase : simpl never.
Arguments map_insert : simpl never.
Arguments cache_find : simpl never.
Arguments cache_add_update : simpl never.
Arguments cache_add_insert : simpl never.
Arguments cache_add : simpl never.

Lemma bind_Done {A B} (m : cache_op A) (f : A → cache_op B) s a s' :
  m s = Done (a, s') → (m ≫= f) s = f a s'.
Proof. unfold mbind, cache_op_bind. by intros ->. Qed.

Lemma bind_bind {A B C} (m : cache_op A) (f : A → cache_op B)
    (g : B → cache_op C) s :
  ((m ≫= f) ≫= g) s = (m ≫= λ a, f a ≫= g) s.
Proof. unfold mbind, cache_op_bind. by destruct (m s) as [[? ?]| | |]. Qed.

Lemma load_Done s p e : heap s !! p = Some e → load p s = Done (e, s).
Proof. unfold load. by intros ->. Qed.

Lemma write_Done s p e f :
  heap s !! p = Some e →
  write p f s = Done (tt, with_heap (<[p := f e]> (heap s)) s).
Proof.
  intros H. unfold write. rewrite (bind_Done _ _ _ _ _ (load_Done _ _ _ H)).
  unfold store. by rewrite H.
Qed.

Lemma free_element_Done s p e :
  heap s !! p = Some e →
  free_element p s = Done (tt, with_heap (delete p (heap s)) s).
Proof. unfold free_element. by intros ->. Qed.

Ltac lookup_tac := simpl; first [eassumption | by simplify_map_eq].
Ltac exec1 :=
  first
    [ rewrite bind_bind
    | erewrite bind_Done by (apply load_Done; lookup_tac)
    | erewrite bind_Done by (apply write_Done; lookup_tac)
    | erewrite bind_Done by (eapply free_element_Done; lookup_tac)
    | erewrite bind_Done by reflexivity
    | erewrite load_Done by lookup_tac
    | erewrite write_Done by lookup_tac
    | erewrite free_element_Done by lookup_tac ].
Ltac exec := repeat exec1.

Lemma last_ptr_nonempty al d d' : al ≠ [] → last_ptr al d = last_ptr al d'.
Proof.
  destruct al as [|y al _] using rev_ind; [done|].
  intros _. by rewrite !last_ptr_snoc.
Qed.

Lemma detach_spec s al x bl :
  linked s (al ++ x :: bl) →
  ∃ s', detach_node_unlocked (Some (e_ptr x)) s = Done (tt, s') ∧
        linked s' (al ++ bl) ∧
        heap s' !! e_ptr x = heap s !! e_ptr x ∧
        dom (heap s') = dom (heap s) ∧
        g_cache_map s' = g_cache_map s ∧
        g_cache_current_size s' = g_cache_current_size s ∧
        g_cache_mutex s' = g_cache_mutex s ∧
        heap_buffers s' = heap_buffers s.
Proof.
  intros [Hnd Hhd Htl Hseg].
  pose proof (dseg_lookup _ _ _ _ _ _ Hseg) as Hx.
  assert (Hnd' : NoDup (e_ptr <$> al ++ bl)).
  { revert Hnd. rewrite !fmap_app, fmap_cons. intros Hnd.
    apply NoDup_app in Hnd as (H1 & H2 & H3).
    apply NoDup_cons in H3 as [H3 H4].
    apply NoDup_app. split_and!; [done| |done].
    intros p Hp Hq. apply (H2 p Hp). by right. }
  assert (Hxal : e_ptr x ∉ e_ptr <$> al ++ bl).
  { revert Hnd. rewrite !fmap_app, fmap_cons. intros Hnd.
    apply NoDup_app in Hnd as (H1 & H2 & H3).
    apply NoDup_cons in H3 as [H3 H4].
    intros [Hin|Hin]%elem_of_app; [|done].
    apply (H2 _ Hin). by left. }
  apply dseg_app in Hseg as (Hal & _ & Hbl).
  unfold detach_node_unlocked.
  destruct al as [|y al _] using rev_ind; destruct bl as [|z bl].
  - repeat (exec; simpl). eexists; split; [reflexivity|].
    split_and!; try done.
  - simpl in Hbl. destruct Hbl as [Hz Hbl].
    repeat (exec; simpl). eexists; split; [reflexivity|].
    assert (e_ptr z ≠ e_ptr x) by (intros E; apply Hxal; rewrite <-E; by left).
    split_and!; simpl; try done.
    + constructor; simpl; [done|done| |].
      * rewrite Htl. simpl. rewrite (last_ptr_cons x).
        by apply last_ptr_nonempty.
      * apply (dseg_set_prev _ (Some (e_ptr x))); [done|]. by split.
    + by rewrite lookup_insert_ne.
    + apply dom_insert_lookup_L. eauto.
  - rewrite last_ptr_snoc in Hx.
    pose proof (dseg_lookup _ _ _ _ [] _ Hal) as Hy. simpl in Hy.
    assert (e_ptr y ≠ e_ptr x).
    { intros E; apply Hxal; rewrite <-E, !fmap_app, !elem_of_app.
      simpl. rewrite !elem_of_cons. tauto. }
    repeat (exec; simpl). eexists; split; [reflexivity|].
    rewrite app_nil_r in *.
    split_and!; simpl; try done.
    + constructor; simpl; [done| | |].
      * rewrite Hhd. rewrite <-(assoc_L (++)), !first_ptr_app. by simpl.
      * by rewrite last_ptr_snoc.
      * by apply (dseg_set_next _ _ _ _ (Some (e_ptr x))).
    + by rewrite lookup_insert_ne.
    + apply dom_insert_lookup_L. eauto.
  - rewrite last_ptr_snoc in Hx.
    pose proof (dseg_lookup _ _ _ _ [] _ Hal) as Hy. simpl in Hy.
    simpl in Hbl. destruct Hbl as [Hz Hbl].
    assert (e_ptr y ≠ e_ptr x).
    { intros E; apply Hxal; rewrite <-E, !fmap_app, !elem_of_app.
      simpl. rewrite !elem_of_cons. tauto. }
    assert (e_ptr z ≠ e_ptr x).
    { intros E; apply Hxal; rewrite <-E, !fmap_app, !elem_of_app.
      simpl. rewrite !elem_of_cons. tauto. }
    assert (e_ptr y ≠ e_ptr z).
    { revert Hnd'. rewrite !fmap_app. simpl. intros Hnd'.
      apply NoDup_app in Hnd' as (_ & H2 & _).
      intros E. apply (H2 (e_ptr y)); set_solver. }
    repeat (exec; simpl). eexists; split; [reflexivity|].
    split_and!; simpl; try done.
    + constructor; simpl; [done| | |].
      * rewrite Hhd. rewrite <-!(assoc_L (++)), !first_ptr_app. by simpl.
      * rewrite Htl. rewrite !last_ptr_app. rewrite (last_ptr_cons x).
        by apply last_ptr_nonempty.
      * apply dseg_app. rewrite last_ptr_snoc. split.
        -- apply dseg_insert_ne.
           { revert Hnd'. rewrite !fmap_app. simpl. intros Hnd'.
             apply NoDup_app in Hnd' as (_ & H2 & _).
             intros Hin. apply (H2 _ Hin). by left. }
           apply (dseg_set_next _ _ _ _ (Some (e_ptr x))); [|done].
           revert Hnd'. rewrite (fmap_app _ (al ++ [y])).
           intros Hnd'. by apply NoDup_app in Hnd' as (? & _).
        -- apply (dseg_set_prev _ (Some (e_ptr x))).
           { revert Hnd'. rewrite (fmap_app _ (al ++ [y])).
             intros Hnd'. by apply NoDup_app in Hnd' as (_ & _ & ?). }
           split; [by rewrite lookup_insert_ne|].
           apply dseg_insert_ne; [|done].
           revert Hnd'. rewrite !fmap_app. simpl. intros Hnd'.
           apply NoDup_app in Hnd' as (_ & H2 & _).
           intros Hin. apply (H2 (e_ptr y)); set_solver.
    + by rewrite !lookup_insert_ne.
    + rewrite !dom_insert_lookup_L; [done|eauto|].
      rewrite lookup_insert_ne by done. eauto.
Qed.

Lemma attach_spec s al x nx0 pv0 :
  linked s al →
  heap s !! e_ptr x = Some (node x nx0 pv0) →
  e_ptr x ∉ e_ptr <$> al →
  ∃ s', attach_node_to_head_unlocked (Some (e_ptr x)) s = Done (tt, s') ∧
        linked s' (x :: al) ∧
        dom (heap s') = dom (heap s) ∧
        g_cache_map s' = g_cache_map s ∧
        g_cache_current_size s' = g_cache_current_size s ∧
        g_cache_mutex s' = g_cache_mutex s ∧
        heap_buffers s' = heap_buffers s.
Proof.
  intros [Hnd Hhd Htl Hseg] Hx Hni.
  unfold attach_node_to_head_unlocked.
  destruct al as [|z al].
  - simpl in Hhd, Htl. unfold last_ptr in Htl. simpl in Htl.
    unfold get_head, get_tail.
    repeat (exec; simpl; rewrite ?Hhd, ?Htl).
    eexists; split; [reflexivity|].
    split_and!; simpl; try done.
    + constructor; simpl; try done.
      * apply NoDup_singleton.
      * split; [|done]. by rewrite lookup_insert_eq.
    + rewrite !dom_insert_lookup_L; [done|eauto|].
      rewrite lookup_insert_eq. eauto.
  - simpl in Hhd. destruct Hseg as [Hz Hseg].
    assert (e_ptr z ≠ e_ptr x).
    { intros E. apply Hni. rewrite <-E. by left. }
    unfold get_head, get_tail.
    repeat (exec; simpl; rewrite ?Hhd, ?Htl).
    rewrite (last_ptr_cons z) in *.
    destruct (last_ptr al (Some (e_ptr z))) as [t|] eqn:Ht.
    2:{ exfalso. revert Ht. unfold last_ptr. by destruct (last al). }
    eexists; split; [reflexivity|].
    split_and!; simpl; try done.
    + constructor; simpl; try done.
      * by apply NoDup_cons.
      * by rewrite !last_ptr_cons, Ht.
      * split; [by rewrite lookup_insert_ne, lookup_insert_eq|].
        apply (dseg_set_prev _ None); [done|].
        split; [by rewrite !lookup_insert_ne|].
        apply NoDup_cons in Hnd as [? ?].
        do 2 (apply dseg_insert_ne; [set_solver|]). done.
    + rewrite !dom_insert_lookup_L; [done|eauto| |].
      * rewrite lookup_insert_eq. eauto.
      * rewrite !lookup_insert_ne by done. eauto.
Qed.

(** ** Lemmas on the index *)

Lemma index_of_cons x al :
  index_of (x :: al) = <[e_key x := e_ptr x]> (index_of al).
Proof. done. Qed.

Lemma index_of_fst al :
  ((λ x, (e_key x, e_ptr x)) <$> al).*1 = e_key <$> al.
Proof. by rewrite <-list_fmap_compose. Qed.

Lemma index_of_lookup al x :
  NoDup (e_key <$> al) → x ∈ al →
  index_of al !! e_key x = Some (e_ptr x).
Proof.
  intros Hnd Hin. apply elem_of_list_to_map_1.
  - by rewrite index_of_fst.
  - apply list_elem_of_fmap. eauto.
Qed.

Lemma index_of_lookup_None al k :
  k ∉ e_key <$> al → index_of al !! k = None.
Proof.
  intros Hni. apply not_elem_of_list_to_map_1. by rewrite index_of_fst.
Qed.

Lemma index_of_lookup_Some al k p :
  index_of al !! k = Some p → ∃ x, x ∈ al ∧ e_key x = k ∧ e_ptr x = p.
Proof.
  intros H. apply elem_of_list_to_map_2 in H.
  apply list_elem_of_fmap in H as (x & [= -> ->] & Hin). eauto.
Qed.

Lemma index_of_delete al x bl :
  NoDup (e_key <$> al ++ x :: bl) →
  delete (e_key x) (index_of (al ++ x :: bl)) = index_of (al ++ bl).
Proof.
  intros Hnd. apply map_eq. intros k.
  assert (Hnd' : NoDup (e_key <$> al ++ bl)).
  { revert Hnd. rewrite !fmap_app, fmap_cons. intros Hnd.
    apply NoDup_app in Hnd as (H1 & H2 & H3).
    apply NoDup_cons in H3 as [H3 H4].
    apply NoDup_app. split_and!; [done| |done].
    intros p Hp Hq. apply (H2 p Hp). by right. }
  assert (Hx : e_key x ∉ e_key <$> al ++ bl).
  { revert Hnd. rewrite !fmap_app, fmap_cons. intros Hnd.
    apply NoDup_app in Hnd as (H1 & H2 & H3).
    apply NoDup_cons in H3 as [H3 H4].
    intros [Hin|Hin]%elem_of_app; [|done].
    apply (H2 _ Hin). by left. }
  destruct (decide (k = e_key x)) as [->|Hne].
  - rewrite lookup_delete_eq. symmetry. by apply index_of_lookup_None.
  - rewrite lookup_delete_ne by done.
    destruct (index_of (al ++ bl) !! k) as [p|] eqn:E.
    + apply index_of_lookup_Some in E as (y & Hy & <- & <-).
      apply index_of_lookup; [done|].
      revert Hy. rewrite !elem_of_app, elem_of_cons. tauto.
    + destruct (index_of (al ++ x :: bl) !! k) as [p|] eqn:E'; [|done].
      apply index_of_lookup_Some in E' as (y & Hy & <- & <-).
      rewrite index_of_lookup in E; [done|done|].
      revert Hy. rewrite !elem_of_app, elem_of_cons.
      intros [?|[->|?]]; [tauto|done|tauto].
Qed.

Lemma rep_lookup s al x bl :
  rep s (al ++ x :: bl) →
  heap s !! e_ptr x = Some (node x (first_ptr bl None) (last_ptr al None)) ∧
  g_cache_map s !! e_key x = Some (e_ptr x).
Proof.
  intros [[_ _ _ Hseg] Hk _ _ ->]. split.
  - by apply dseg_lookup in Hseg.
  - apply index_of_lookup; [done|]. rewrite elem_of_app, elem_of_cons. tauto.
Qed.

Lemma remove_lru_spec s al x :
  rep s (al ++ [x]) →
  ∃ s', remove_lru_element_unlocked s = Done (tt, s') ∧
        rep s' al ∧
        g_cache_current_size s' = size_sub (g_cache_current_size s) (e_len x) ∧
        g_cache_mutex s' = g_cache_mutex s.
Proof.
  intros Hrep.
  destruct (rep_lookup _ _ _ _ Hrep) as [Hx Hm].
  destruct Hrep as [Hl Hk Hdom Hbuf Hmap].
  pose proof (linked_nodup _ _ Hl) as Hnd.
  assert (Hni : e_ptr x ∉ e_ptr <$> al).
  { revert Hnd. rewrite fmap_app. simpl. intros Hnd.
    apply NoDup_app in Hnd as (_ & H2 & _). intros Hin.
    apply (H2 _ Hin). by left. }
  destruct (detach_spec _ _ _ _ Hl) as (s1 & Hd & Hl1 & Hx1 & Hdom1 & Hm1 & Hsz1 & Hmu1 & Hb1).
  rewrite app_nil_r in Hl1. rewrite Hx in Hx1.
  unfold remove_lru_element_unlocked, get_tail.
  exec. rewrite (linked_tail _ _ Hl), last_ptr_snoc.
  rewrite (bind_Done _ _ _ _ _ Hd).
  unfold get_current_size, set_current_size.
  repeat (exec; simpl). unfold map_erase, get_map. exec. simpl.
  rewrite Hm1, Hm. unfold set_map.
  repeat (exec; simpl). unfold free_cache_element.
  repeat (exec; simpl).
  eexists; split; [reflexivity|]. simpl.
  rewrite !delete_insert_eq.
  split_and!; try done; [|by rewrite Hsz1].
  destruct Hl1 as [Hnd1 Hhd1 Htl1 Hseg1].
  constructor; simpl.
  - constructor; simpl; try done.
    by apply dseg_delete_ne.
  - revert Hk. rewrite fmap_app. intros Hk. by apply NoDup_app in Hk as (? & _).
  - rewrite dom_delete_L, Hdom1, Hdom, fmap_app. simpl.
    set_solver.
  - rewrite Hb1, Hbuf, length_app. simpl. lia.
  - rewrite Hmap. rewrite (index_of_delete al x []) by done.
    by rewrite app_nil_r.
Qed.

(** ** The eviction loop *)

Lemma total_app al bl : total (al ++ bl) = total al + total bl.
Proof. induction al as [|x al IH]; simpl; lia. Qed.

Lemma total_nonneg al : 0 ≤ total al.
Proof. induction al as [|x al IH]; simpl; unfold e_len; lia. Qed.

Lemma SIZE_MOD_eq : SIZE_MOD = 18446744073709551616.
Proof. reflexivity. Qed.

Lemma size_sub_sub t c l : size_sub (size_sub t c) l = size_sub (t - l) c.
Proof.
  unfold size_sub. rewrite Zminus_mod_idemp_l. f_equal. lia.
Qed.

Lemma size_add_sub t c l :
  0 ≤ t - c + l < SIZE_MOD → size_add (size_sub t c) l = t - c + l.
Proof.
  intros H. unfold size_add, size_sub. rewrite Zplus_mod_idemp_l.
  by apply Z.mod_small.
Qed.

Lemma evict_run_loop length P s n s' :
  evict_run length P s n s' →
  ∀ fuel, (n ≤ fuel)%nat → evict_loop fuel length s = Done (tt, s').
Proof.
  induction 1 as [s Hc|s s1 n s' Hc HP Hrm Hrun IH]; intros fuel Hfuel.
  - destruct fuel; simpl; by rewrite Hc.
  - destruct fuel as [|fuel]; [lia|]. simpl. rewrite Hc.
    rewrite (bind_Done _ _ _ _ _ Hrm). apply IH. lia.
Qed.

Lemma evict_run_impl length (P Q : state → Prop) s n s' :
  (∀ s, P s → Q s) →
  evict_run length P s n s' → evict_run length Q s n s'.
Proof.
  intros HPQ. induction 1 as [s Hc|s s1 n s' Hc HP Hrm Hrun IH].
  - by apply evict_run_stop.
  - apply (evict_run_step _ _ _ s1); auto.
Qed.

Lemma evicting_snoc length c al x s :
  evicting length c al s → evicting length c (al ++ [x]) s.
Proof.
  intros (l & y & rest & -> & Hrep & Hgt).
  exists l, y, (rest ++ [x]). by rewrite (assoc_L (++)).
Qed.

(** With [c] bytes missing from [current_size] (none on the insert
    path, the old size of the updated entry on the update path), the
    loop removes a suffix [evicted] of the recency list, tail first,
    one entry per iteration, and stops at the first moment the new
    payload fits. *)
Lemma evict_run_spec length c :
  0 < length ≤ MAX_CACHE_SIZE → 0 ≤ c →
  ∀ al s,
    rep s al →
    total al ≤ MAX_CACHE_SIZE →
    c ≤ total al + length →
    g_cache_current_size s = size_sub (total al) c →
    ∃ kept evicted s',
      al = kept ++ evicted ∧
      evict_run length (evicting length c al) s (List.length evicted) s' ∧
      rep s' kept ∧
      g_cache_current_size s' = size_sub (total kept) c ∧
      g_cache_mutex s' = g_cache_mutex s ∧
      0 ≤ total kept - c + length ≤ MAX_CACHE_SIZE ∧
      (∀ ev1 y ev2, evicted = ev1 ++ y :: ev2 →
         MAX_CACHE_SIZE < total (kept ++ ev1 ++ [y]) - c + length).
Proof.
  intros Hlen Hc al.
  induction al as [|x al IH] using rev_ind; intros s Hrep Hcap Hinv Hsz.
  - exists [], [], s. simpl in *.
    assert (Hadd : size_add (g_cache_current_size s) length = 0 - c + length).
    { rewrite Hsz. apply size_add_sub. rewrite SIZE_MOD_eq.
      unfold MAX_CACHE_SIZE in *. lia. }
    split_and!; [done| |done|done|done|lia|lia| ].
    + apply evict_run_stop. rewrite Hadd. apply Z.ltb_ge. lia.
    + intros ev1 y ev2 E. by destruct ev1.
  - rewrite total_app in Hcap, Hinv, Hsz. simpl in Hcap, Hinv, Hsz.
    pose proof (total_nonneg al) as Hal.
    assert (0 ≤ e_len x) by (unfold e_len; lia).
    assert (Hadd : size_add (g_cache_current_size s) length
                   = total al + (e_len x + 0) - c + length).
    { rewrite Hsz. apply size_add_sub. rewrite SIZE_MOD_eq.
      unfold MAX_CACHE_SIZE in *. lia. }
    destruct (Z.ltb_spec MAX_CACHE_SIZE (total al + (e_len x + 0) - c + length))
      as [Hgt|Hle].
    + destruct (remove_lru_spec _ _ _ Hrep) as (s1 & Hrm & Hrep1 & Hsz1 & Hmu1).
      destruct (IH s1) as (kept & ev & s' & -> & Hrun & Hrep' & Hsz' & Hmu' & Hfit & Hmin);
        try done; try lia.
      { rewrite Hsz1, Hsz, size_sub_sub. f_equal. lia. }
      exists kept, (ev ++ [x]), s'.
      split_and!; [ | |done|done|congruence|lia|lia| ].
      * by rewrite (assoc_L (++)).
      * rewrite length_app, Nat.add_comm. simpl.
        apply (evict_run_step _ _ _ s1); [| |done|].
        -- rewrite Hadd. apply Z.ltb_lt. lia.
        -- exists (kept ++ ev), x, []. rewrite app_nil_r.
           split_and!; [done|done|]. rewrite total_app. simpl. lia.
        -- apply (evict_run_impl _ _ _ _ _ _ (λ s, evicting_snoc _ _ _ x s) Hrun).
      * intros ev1 y ev2 E.
        destruct ev2 as [|z ev2 _] using rev_ind.
        -- apply (app_inj_tail ev ev1 x y) in E as [-> ->].
           rewrite (assoc_L (++)), total_app. simpl. lia.
        -- rewrite app_comm_cons, (assoc_L (++)) in E.
           apply app_inj_tail in E as [-> ->]. by apply (Hmin _ _ ev2).
    + exists (al ++ [x]), [], s.
      split_and!; [ | |done| |done| | | ].
      * by rewrite app_nil_r.
      * apply evict_run_stop. rewrite Hadd. apply Z.ltb_ge. lia.
      * by rewrite total_app.
      * rewrite total_app. simpl. lia.
      * rewrite total_app. simpl. lia.
      * intros ev1 y ev2 E. by destruct ev1.
Qed.

Lemma evict_loop_spec length c :
  0 < length ≤ MAX_CACHE_SIZE → 0 ≤ c →
  ∀ al s fuel,
    rep s al →
    total al ≤ MAX_CACHE_SIZE →
    c ≤ total al + length →
    g_cache_current_size s = size_sub (total al) c →
    (List.length al ≤ fuel)%nat →
    ∃ kept evicted s',
      al = kept ++ evicted ∧
      evict_loop fuel length s = Done (tt, s') ∧
      rep s' kept ∧
      g_cache_current_size s' = size_sub (total kept) c ∧
      g_cache_mutex s' = g_cache_mutex s ∧
      0 ≤ total kept - c + length ≤ MAX_CACHE_SIZE ∧
      (∀ ev1 y ev2, evicted = ev1 ++ y :: ev2 →
         MAX_CACHE_SIZE < total (kept ++ ev1 ++ [y]) - c + length).
Proof.
  intros Hlen Hc al s fuel Hrep Hcap Hinv Hsz Hfuel.
  destruct (evict_run_spec length c Hlen Hc al s Hrep Hcap Hinv Hsz)
    as (kept & ev & s' & -> & Hrun & Hrest).
  exists kept, ev, s'. split; [done|]. split; [|done].
  apply (evict_run_loop _ _ _ _ _ Hrun).
  rewrite length_app in Hfuel. lia.
Qed.

(** ** Specification of [cache_find] *)

Lemma linked_ext s s' al :
  heap s' = heap s → g_cache_head s' = g_cache_head s →
  g_cache_tail s' = g_cache_tail s → linked s al → linked s' al.
Proof. intros Hh Hhd Htl [? ? ? ?]. constructor; congruence. Qed.

Lemma rep_ext s s' al :
  heap s' = heap s → heap_buffers s' = heap_buffers s →
  g_cache_head s' = g_cache_head s → g_cache_tail s' = g_cache_tail s →
  g_cache_map s' = g_cache_map s →
  rep s al → rep s' al.
Proof.
  intros Hh Hb Hhd Htl Hm [? ? ? ? ?].
  constructor; [by apply (linked_ext s)|done|congruence|congruence|congruence].
Qed.

Lemma mutex_lock_Done s :
  g_cache_mutex s = false → mutex_lock s = Done (tt, with_mutex true s).
Proof. unfold mutex_lock. by intros ->. Qed.

Lemma with_mutex_unlock s :
  g_cache_mutex s = false → with_mutex false (with_mutex true s) = s.
Proof. destruct s. simpl. by intros ->. Qed.

Lemma index_of_perm al bl :
  NoDup (e_key <$> al) → al ≡ₚ bl → index_of al = index_of bl.
Proof.
  intros Hnd Hp. unfold index_of. apply list_to_map_proper.
  - by rewrite index_of_fst.
  - by rewrite Hp.
Qed.

Lemma total_perm al bl : al ≡ₚ bl → total al = total bl.
Proof.
  induction 1; simpl; lia.
Qed.

Lemma Inv_pos_len s al x : Inv s al → x ∈ al → 0 < e_len x ≤ MAX_CACHE_SIZE.
Proof.
  intros [_ Hpos _ Hcap _] Hin.
  apply list_elem_of_split in Hin as (l1 & l2 & ->).
  apply Forall_app in Hpos as [_ Hpos]. apply Forall_cons in Hpos as [Hx _].
  rewrite total_app in Hcap. simpl in Hcap.
  pose proof (total_nonneg l1). pose proof (total_nonneg l2). lia.
Qed.

(** A hit moves the entry to the head of the recency list and changes
    nothing else. *)
Lemma cache_find_hit s al x bl :
  Inv s (al ++ x :: bl) →
  ∃ s', cache_find (Some (e_key x)) s = Done (Some (e_ptr x), s') ∧
        Inv s' (x :: al ++ bl) ∧
        g_cache_current_size s' = g_cache_current_size s.
Proof.
  intros [Hrep Hpos Hsz Hcap Hmu].
  destruct (rep_lookup _ _ _ _ Hrep) as [Hx Hm].
  assert (Hrep0 : rep (with_mutex true s) (al ++ x :: bl)) by by apply (rep_ext s).
  destruct Hrep0 as [Hl Hk Hdom Hbuf Hmap].
  destruct (detach_spec _ _ _ _ Hl) as (s1 & Hd & Hl1 & Hx1 & Hdom1 & Hm1 & Hsz1 & Hmu1 & Hb1).
  simpl in Hx1. rewrite Hx in Hx1.
  assert (Hni : e_ptr x ∉ e_ptr <$> al ++ bl).
  { pose proof (linked_nodup _ _ Hl) as Hnd. revert Hnd.
    rewrite !fmap_app, fmap_cons. intros Hnd.
    apply NoDup_app in Hnd as (H1 & H2 & H3).
    apply NoDup_cons in H3 as [H3 H4].
    intros [Hin|Hin]%elem_of_app; [|done].
    apply (H2 _ Hin). by left. }
  destruct (attach_spec _ _ _ _ _ Hl1 Hx1 Hni)
    as (s2 & Ha & Hl2 & Hdom2 & Hm2 & Hsz2 & Hmu2 & Hb2).
  assert (Hperm : x :: al ++ bl ≡ₚ al ++ x :: bl) by apply Permutation_middle.
  unfold cache_find. rewrite (bind_Done _ _ _ _ _ (mutex_lock_Done _ Hmu)).
  unfold map_find, get_map. exec. simpl. rewrite Hm.
  exec. rewrite (bind_Done _ _ _ _ _ Hd), (bind_Done _ _ _ _ _ Ha).
  eexists; split; [reflexivity|].
  assert (Hk' : NoDup (e_key <$> x :: al ++ bl)) by by rewrite Hperm.
  assert (Hset : list_to_set (e_ptr <$> x :: al ++ bl)
                 =@{gset ptr} list_to_set (e_ptr <$> al ++ x :: bl))
    by by rewrite Hperm.
  assert (Hpos' : Forall (λ x, 0 < e_len x) (x :: al ++ bl)) by by rewrite Hperm.
  pose proof (total_perm _ _ Hperm) as Htot.
  split; [|simpl; by rewrite Hsz2, Hsz1].
  constructor; [|done| | |done].
  - constructor; [by apply (linked_ext s2)|done| | |].
    + simpl heap. by rewrite Hdom2, Hdom1, Hdom.
    + simpl heap_buffers. rewrite Hb2, Hb1, Hbuf.
      by rewrite <-(Permutation_length Hperm).
    + simpl g_cache_map. rewrite Hm2, Hm1, Hmap. symmetry.
      by apply index_of_perm.
  - simpl g_cache_current_size. rewrite Hsz2, Hsz1. simpl. by rewrite Hsz.
  - by rewrite Htot.
Qed.

(** A miss leaves the state as it was. *)
Lemma cache_find_miss s al k :
  Inv s al → k ∉ e_key <$> al →
  cache_find (Some k) s = Done (None, s).
Proof.
  intros [Hrep Hpos Hsz Hcap Hmu] Hk.
  unfold cache_find. rewrite (bind_Done _ _ _ _ _ (mutex_lock_Done _ Hmu)).
  unfold map_find, get_map. exec. simpl.
  rewrite (rep_map _ _ Hrep), index_of_lookup_None by done.
  exec. unfold mutex_unlock. simpl. by rewrite with_mutex_unlock.
Qed.

(** ** Specification of [cache_add]: the insert path *)

Lemma size_sub_0 t : 0 ≤ t ≤ MAX_CACHE_SIZE → size_sub t 0 = t.
Proof.
  intros H. unfold size_sub. rewrite Z.sub_0_r. apply Z.mod_small.
  rewrite SIZE_MOD_eq. unfold MAX_CACHE_SIZE in *. lia.
Qed.

Lemma valid_length_test length :
  0 < length ≤ MAX_CACHE_SIZE →
  (length =? 0) || (MAX_CACHE_SIZE <? length) = false.
Proof.
  intros H. apply orb_false_intro; [apply Z.eqb_neq|apply Z.ltb_ge]; lia.
Qed.

(** A valid call for an absent key enters the insert path with the
    lock held. *)
Lemma cache_add_enter_insert s al fuel a k d length :
  Inv s al → k ∉ e_key <$> al → 0 < length ≤ MAX_CACHE_SIZE →
  cache_add fuel a (Some k) (Some d) length s
  = cache_add_insert fuel a k d length (with_mutex true s).
Proof.
  intros [Hrep _ _ _ Hmu] Hk Hlen. unfold cache_add.
  rewrite valid_length_test by done.
  rewrite (bind_Done _ _ _ _ _ (mutex_lock_Done _ Hmu)).
  unfold map_find, get_map. exec. simpl.
  by rewrite (rep_map _ _ Hrep), index_of_lookup_None.
Qed.

(** The eviction phase of the insert path. *)
Lemma insert_evict_spec s al fuel length :
  Inv s al → 0 < length ≤ MAX_CACHE_SIZE → (List.length al ≤ fuel)%nat →
  ∃ kept evicted s1,
    al = kept ++ evicted ∧
    evict_loop fuel length (with_mutex true s) = Done (tt, s1) ∧
    rep s1 kept ∧
    g_cache_current_size s1 = total kept ∧
    g_cache_mutex s1 = true ∧
    total kept + length ≤ MAX_CACHE_SIZE ∧
    (∀ ev1 y ev2, evicted = ev1 ++ y :: ev2 →
       MAX_CACHE_SIZE < total (kept ++ ev1 ++ [y]) + length).
Proof.
  intros [Hrep Hpos Hsz Hcap Hmu] Hlen Hfuel.
  pose proof (total_nonneg al) as Hnn.
  destruct (evict_loop_spec length 0 Hlen (reflexivity _) al (with_mutex true s) fuel)
    as (kept & ev & s1 & -> & Hrun & Hrep1 & Hsz1 & Hmu1 & Hfit & Hmin);
    [by apply (rep_ext s)|done|lia| |done|].
  { simpl. rewrite Hsz. symmetry. by apply size_sub_0. }
  exists kept, ev, s1.
  rewrite total_app in Hcap. pose proof (total_nonneg kept). pose proof (total_nonneg ev).
  split_and!; [done|done|done| |done|lia|].
  - rewrite Hsz1. apply size_sub_0. lia.
  - intros ev1 y ev2 E. specialize (Hmin _ _ _ E). lia.
Qed.

Lemma rep_fresh s al : rep s al → fresh (dom (heap s)) ∉ e_ptr <$> al.
Proof.
  intros [_ _ Hdom _ _] Hin.
  apply (is_fresh (dom (heap s))). rewrite Hdom at 2.
  by apply elem_of_list_to_set.
Qed.

Lemma rep_fresh_None s al : rep s al → heap s !! fresh (dom (heap s)) = None.
Proof. intros _. apply not_elem_of_dom, is_fresh. Qed.

Ltac norm :=
  unfold with_heap, with_heap_buffers, with_map, with_head, with_tail,
    with_current_size, with_mutex; simpl.

Lemma take_length_Z (d : list byte) n :
  0 ≤ n ≤ Z.of_nat (length d) → Z.of_nat (length (take (Z.to_nat n) d)) = n.
Proof. intros H. rewrite length_take. lia. Qed.

Lemma memcpy_fresh d n :
  0 ≤ n ≤ Z.of_nat (length d) →
  ∀ s, memcpy (Live (replicate (Z.to_nat n) Byte.x00)) d n s
       = Done (Live (take (Z.to_nat n) d), s).
Proof.
  intros H s. unfold memcpy.
  rewrite length_replicate. rewrite decide_True by lia.
  rewrite drop_ge by (rewrite length_replicate; lia).
  by rewrite app_nil_r.
Qed.

(** Inserting an absent key: the least recently used entries that do
    not fit are evicted and the new entry becomes the head. *)
Lemma cache_add_insert_ok s al fuel k d length :
  Inv s al → k ∉ e_key <$> al →
  0 < length ≤ MAX_CACHE_SIZE → length ≤ Z.of_nat (List.length d) →
  (List.length al ≤ fuel)%nat →
  ∃ kept evicted p s',
    al = kept ++ evicted ∧
    cache_add fuel all_ok (Some k) (Some d) length s = Done (tt, s') ∧
    Inv s' (mk_entry p k (take (Z.to_nat length) d) :: kept) ∧
    total kept + length ≤ MAX_CACHE_SIZE ∧
    (∀ ev1 y ev2, evicted = ev1 ++ y :: ev2 →
       MAX_CACHE_SIZE < total (kept ++ ev1 ++ [y]) + length).
Proof.
  intros HInv Hk Hlen Hd Hfuel.
  destruct (insert_evict_spec _ _ _ _ HInv Hlen Hfuel)
    as (kept & ev & s1 & -> & Hrun & Hrep1 & Hsz1 & Hmu1 & Hfit & Hmin).
  pose proof (rep_fresh _ _ Hrep1) as Hfresh.
  pose proof (rep_fresh_None _ _ Hrep1) as HfreshN.
  set (p := fresh (dom (heap s1))) in *.
  set (x := mk_entry p k (take (Z.to_nat length) d)).
  rewrite (cache_add_enter_insert _ _ _ _ _ _ _ HInv Hk Hlen).
  unfold cache_add_insert. rewrite (bind_Done _ _ _ _ _ Hrun).
  assert (Hc : calloc_element (calloc_ok all_ok) s1
               = Done (Some p, with_heap (<[p := zero_element]> (heap s1)) s1))
    by done.
  rewrite (bind_Done _ _ _ _ _ Hc).
  repeat (exec; simpl).
  rewrite (bind_Done _ _ _ _ _ (memcpy_fresh d length ltac:(lia) _)).
  repeat (exec; simpl).
  norm. rewrite !insert_insert_eq.
  match goal with
  | |- context [<[p := ?e]> (heap s1)] =>
      replace e with (node x None None)
        by (unfold node, e_len; simpl; by rewrite take_length_Z by lia)
  end.
  set (s2 := mk_state _ _ _ _ _ _ _).
  assert (Hl2 : linked s2 kept).
  { destruct Hrep1 as [[? ? ? ?] _ _ _ _]. constructor; try done.
    by apply dseg_insert_ne. }
  assert (Hx2 : heap s2 !! e_ptr x = Some (node x None None))
    by apply lookup_insert_eq.
  destruct (attach_spec _ _ _ _ _ Hl2 Hx2 Hfresh)
    as (s3 & Ha & Hl3 & Hdom3 & Hm3 & Hsz3 & Hmu3 & Hb3).
  rewrite (bind_Done _ _ _ _ _ Ha).
  pose proof (linked_dseg _ _ Hl3) as [Hx3 _].
  unfold map_insert, get_map, set_map, get_current_size, set_current_size.
  repeat (exec; simpl). norm.
  exists kept, ev, p. eexists. split; [done|]. split; [reflexivity|].
  pose proof (total_nonneg kept) as Hnn.
  assert (Hxl : e_len x = length) by (unfold e_len; simpl; by rewrite take_length_Z by lia).
  split; [|by split].
  destruct HInv as [_ Hpos _ _ _]. apply Forall_app in Hpos as [Hpos _].
  constructor; simpl.
  - constructor; simpl.
    + by apply (linked_ext s3).
    + apply NoDup_cons. split; [|apply (rep_keys _ _ Hrep1)].
      intros Hin. apply Hk. rewrite fmap_app. apply elem_of_app. by left.
    + rewrite Hdom3. unfold s2. simpl. rewrite dom_insert_L.
      by rewrite (rep_dom _ _ Hrep1).
    + rewrite Hb3. unfold s2. simpl. rewrite (rep_buffers _ _ Hrep1). lia.
    + rewrite Hm3. unfold s2. simpl. by rewrite (rep_map _ _ Hrep1).
  - apply Forall_cons. split; [|done]. change (0 < e_len x). lia.
  - change (size_add (g_cache_current_size s3) length = e_len x + total kept).
    rewrite Hsz3. unfold s2. simpl. rewrite Hsz1, Hxl.
    unfold size_add. rewrite Z.mod_small; [lia|].
    rewrite SIZE_MOD_eq. unfold MAX_CACHE_SIZE in *. lia.
  - change (e_len x + total kept ≤ MAX_CACHE_SIZE). lia.
  - done.
Qed.

Lemma Inv_after_evict s1 s al kept ev :
  Inv s al → al = kept ++ ev →
  rep s1 kept → g_cache_current_size s1 = total kept →
  Inv (with_mutex false s1) kept.
Proof.
  intros [_ Hpos _ Hcap _] -> Hrep Hsz.
  apply Forall_app in Hpos as [Hpos _].
  rewrite total_app in Hcap. pose proof (total_nonneg ev).
  constructor; [by apply (rep_ext s1)|done|done|lia|done].
Qed.

(** A failed allocation on the insert path: the call returns with the
    state of the end of the eviction phase and the lock released. *)
Lemma cache_add_insert_fail s al fuel a k d length :
  Inv s al → k ∉ e_key <$> al →
  0 < length ≤ MAX_CACHE_SIZE →
  (List.length al ≤ fuel)%nat →
  calloc_ok a && strdup_ok a && malloc_ok a = false →
  ∃ kept evicted s1,
    al = kept ++ evicted ∧
    evict_loop fuel length (with_mutex true s) = Done (tt, s1) ∧
    cache_add fuel a (Some k) (Some d) length s
    = Done (tt, with_mutex false s1) ∧
    Inv (with_mutex false s1) kept.
Proof.
  intros HInv Hk Hlen Hfuel Ha.
  destruct (insert_evict_spec _ _ _ _ HInv Hlen Hfuel)
    as (kept & ev & s1 & E & Hrun & Hrep1 & Hsz1 & Hmu1 & Hfit & Hmin).
  pose proof (rep_fresh_None _ _ Hrep1) as HfreshN.
  exists kept, ev, s1.
  split_and!; [done|done| |by apply (Inv_after_evict s1 s al kept ev)].
  rewrite (cache_add_enter_insert _ _ _ _ _ _ _ HInv Hk Hlen).
  unfold cache_add_insert. rewrite (bind_Done _ _ _ _ _ Hrun).
  destruct a as [[] ok2 ok3]; simpl in Ha; unfold calloc_element; simpl.
  2:{ by exec. }
  destruct ok2, ok3; try done; repeat (exec; simpl); norm;
    rewrite !delete_insert_eq, delete_id by done;
    by destruct s1.
Qed.

(** ** Specification of [cache_add]: the update path *)

(** A valid call for a present key enters the update path with the
    lock held. *)
Lemma cache_add_enter_update s al x bl fuel a d length :
  Inv s (al ++ x :: bl) → 0 < length ≤ MAX_CACHE_SIZE →
  cache_add fuel a (Some (e_key x)) (Some d) length s
  = cache_add_update fuel a (e_ptr x) d length (with_mutex true s).
Proof.
  intros [Hrep _ _ _ Hmu] Hlen. unfold cache_add.
  rewrite valid_length_test by done.
  rewrite (bind_Done _ _ _ _ _ (mutex_lock_Done _ Hmu)).
  unfold map_find, get_map. exec. simpl.
  by destruct (rep_lookup _ _ _ _ Hrep) as [_ ->].
Qed.

(** Where an entry of a list sits after the list has been cut in two. *)
Lemma split_at_entry (al : list entry) x bl kept ev :
  al ++ x :: bl = kept ++ ev →
  (∃ k2, kept = al ++ x :: k2 ∧ bl = k2 ++ ev) ∨
  (∃ e1, al = kept ++ e1 ∧ ev = e1 ++ x :: bl).
Proof.
  intros E. destruct (app_eq_app _ _ _ _ E) as [l [[-> ->]|[-> E']]].
  - right. eauto.
  - destruct l as [|y l]; simpl in E'.
    + right. exists []. rewrite !app_nil_r. by split.
    + injection E' as <- ->. left. eauto.
Qed.

(** The eviction phase of the update path, entered after the old size
    of the entry [x] has been subtracted. *)
Lemma update_evict_spec s al x bl fuel length :
  Inv s (al ++ x :: bl) → 0 < length ≤ MAX_CACHE_SIZE →
  (List.length (al ++ x :: bl) ≤ fuel)%nat →
  ∃ kept evicted s1,
    al ++ x :: bl = kept ++ evicted ∧
    evict_loop fuel length
      (with_current_size (size_sub (g_cache_current_size s) (e_len x))
         (with_mutex true s)) = Done (tt, s1) ∧
    rep s1 kept ∧
    g_cache_current_size s1 = size_sub (total kept) (e_len x) ∧
    g_cache_mutex s1 = true ∧
    0 ≤ total kept - e_len x + length ≤ MAX_CACHE_SIZE ∧
    (∀ ev1 y ev2, evicted = ev1 ++ y :: ev2 →
       MAX_CACHE_SIZE < total (kept ++ ev1 ++ [y]) - e_len x + length).
Proof.
  intros HInv Hlen Hfuel.
  assert (Hx : 0 < e_len x ≤ MAX_CACHE_SIZE).
  { apply (Inv_pos_len _ _ _ HInv). rewrite elem_of_app, elem_of_cons. tauto. }
  destruct HInv as [Hrep Hpos Hsz Hcap Hmu].
  pose proof Hcap as Hcap'. rewrite total_app in Hcap'. simpl in Hcap'.
  pose proof (total_nonneg al). pose proof (total_nonneg bl).
  destruct (evict_loop_spec length (e_len x) Hlen ltac:(lia) (al ++ x :: bl)
              (with_current_size (size_sub (g_cache_current_size s) (e_len x))
                 (with_mutex true s)) fuel)
    as (kept & ev & s1 & E & Hrun & Hrep1 & Hsz1 & Hmu1 & Hfit & Hmin);
    [by apply (rep_ext s)|done| |simpl; by rewrite Hsz|done|].
  { rewrite total_app. simpl. lia. }
  exists kept, ev, s1. destruct Hfit. by split_and!.
Qed.

(** The updated entry survives the eviction phase exactly when the
    entries used more recently leave room for the new payload. *)
Lemma update_survives (al : list entry) x bl kept ev length :
  al ++ x :: bl = kept ++ ev →
  (∀ ev1 y ev2, ev = ev1 ++ y :: ev2 →
     MAX_CACHE_SIZE < total (kept ++ ev1 ++ [y]) - e_len x + length) →
  total al + length ≤ MAX_CACHE_SIZE →
  ∃ k2, kept = al ++ x :: k2 ∧ bl = k2 ++ ev.
Proof.
  intros E Hmin Hroom.
  destruct (split_at_entry _ _ _ _ _ E) as [?|(e1 & -> & ->)]; [done|].
  specialize (Hmin e1 x bl eq_refl).
  exfalso. rewrite !total_app in Hmin. rewrite total_app in Hroom.
  simpl in Hmin. lia.
Qed.

Lemma update_evicted (al : list entry) x bl kept ev length :
  al ++ x :: bl = kept ++ ev →
  total kept - e_len x + length ≤ MAX_CACHE_SIZE →
  MAX_CACHE_SIZE < total al + length →
  ∃ e1, al = kept ++ e1 ∧ ev = e1 ++ x :: bl.
Proof.
  intros E Hfit Hfull.
  destruct (split_at_entry _ _ _ _ _ E) as [(k2 & -> & ->)|?]; [|done].
  exfalso. rewrite !total_app in Hfit. simpl in Hfit.
  pose proof (total_nonneg k2). lia.
Qed.

Lemma NoDup_remove_middle {A B} (f : A → B) (al : list A) x bl :
  NoDup (f <$> al ++ x :: bl) →
  NoDup (f <$> al ++ bl) ∧ f x ∉ f <$> al ++ bl.
Proof.
  rewrite !fmap_app, fmap_cons. intros Hnd.
  apply NoDup_app in Hnd as (H1 & H2 & H3).
  apply NoDup_cons in H3 as [H3 H4]. split.
  - apply NoDup_app. split_and!; [done| |done].
    intros p Hp Hq. apply (H2 p Hp). by right.
  - intros [Hin|Hin]%elem_of_app; [|done].
    apply (H2 _ Hin). by left.
Qed.

Lemma index_of_move al x x' bl :
  e_key x' = e_key x → e_ptr x' = e_ptr x →
  NoDup (e_key <$> al ++ x :: bl) →
  index_of (al ++ x :: bl) = index_of (x' :: al ++ bl).
Proof.
  intros Hk Hp Hnd. unfold index_of. apply list_to_map_proper.
  - by rewrite index_of_fst.
  - rewrite fmap_cons, !fmap_app, fmap_cons, Hk, Hp.
    symmetry. apply Permutation_middle.
Qed.

(** Updating a present key whose entry survives eviction: the payload
    is replaced and the entry becomes the head. *)
Lemma cache_add_update_ok s al x bl fuel a d length :
  Inv s (al ++ x :: bl) →
  0 < length ≤ MAX_CACHE_SIZE → length ≤ Z.of_nat (List.length d) →
  (List.length (al ++ x :: bl) ≤ fuel)%nat →
  total al + length ≤ MAX_CACHE_SIZE →
  malloc_ok a = true →
  ∃ kept2 evicted s',
    bl = kept2 ++ evicted ∧
    cache_add fuel a (Some (e_key x)) (Some d) length s = Done (tt, s') ∧
    Inv s' (mk_entry (e_ptr x) (e_key x) (take (Z.to_nat length) d)
              :: al ++ kept2) ∧
    (∀ ev1 y ev2, evicted = ev1 ++ y :: ev2 →
       MAX_CACHE_SIZE < total (al ++ kept2 ++ ev1 ++ [y]) + length).
Proof.
  intros HInv Hlen Hd Hfuel Hroom Hok.
  destruct (update_evict_spec _ _ _ _ _ _ HInv Hlen Hfuel)
    as (kept & ev & s1 & E & Hrun & Hrep1 & Hsz1 & Hmu1 & Hfit & Hmin).
  destruct (update_survives _ _ _ _ _ _ E Hmin Hroom) as (k2 & -> & ->).
  rewrite (cache_add_enter_update _ _ _ _ _ _ _ _ HInv Hlen).
  pose proof (Inv_pos_len _ _ x HInv) as Hxlen.
  destruct HInv as [Hrep Hpos Hsz Hcap Hmu].
  destruct (rep_lookup _ _ _ _ Hrep) as [Hx _].
  destruct (rep_lookup _ _ _ _ Hrep1) as [Hx1 Hm1].
  destruct Hrep1 as [Hl1 Hk1 Hdom1 Hbuf1 Hmap1].
  destruct (detach_spec _ _ _ _ Hl1)
    as (s2 & Hdet & Hl2 & Hx2 & Hdom2 & Hm2 & Hsz2 & Hmu2 & Hb2).
  rewrite Hx1 in Hx2.
  unfold cache_add_update.
  exec. simpl. exec. simpl. exec.
  rewrite (bind_Done _ _ _ _ _ Hrun), (bind_Done _ _ _ _ _ Hdet).
  repeat (exec; simpl). rewrite Hok. repeat (exec; simpl).
  rewrite (bind_Done _ _ _ _ _ (memcpy_fresh d length ltac:(lia) _)).
  repeat (exec; simpl). norm. rewrite !insert_insert_eq.
  set (x' := mk_entry (e_ptr x) (e_key x) (take (Z.to_nat length) d)).
  assert (Hxl : e_len x' = length).
  { unfold e_len; simpl; by rewrite take_length_Z by lia. }
  match goal with
  | |- context [<[e_ptr x := ?e]> (heap s2)] =>
      replace e with (node x' (first_ptr k2 None) (last_ptr al None))
        by (unfold node; simpl; by rewrite Hxl)
  end.
  set (s3 := mk_state _ _ _ _ _ _ _).
  pose proof (linked_nodup _ _ Hl1) as Hnd1.
  destruct (NoDup_remove_middle e_ptr _ _ _ Hnd1) as [Hnd2 Hni].
  assert (Hl3 : linked s3 (al ++ k2)).
  { destruct Hl2 as [? ? ? ?]. constructor; try done.
    by apply dseg_insert_ne. }
  assert (Hx3 : heap s3 !! e_ptr x'
                = Some (node x' (first_ptr k2 None) (last_ptr al None)))
    by apply lookup_insert_eq.
  destruct (attach_spec _ _ _ _ _ Hl3 Hx3 Hni)
    as (s4 & Hatt & Hl4 & Hdom4 & Hm4 & Hsz4 & Hmu4 & Hb4).
  change (e_ptr x) with (e_ptr x'). rewrite (bind_Done _ _ _ _ _ Hatt).
  exists k2, ev. eexists. split; [done|]. split; [reflexivity|].
  pose proof (total_nonneg al). pose proof (total_nonneg k2).
  rewrite !total_app in Hfit. simpl in Hfit.
  split.
  - constructor.
    + constructor.
      * by apply (linked_ext s4).
      * destruct (NoDup_remove_middle e_key _ _ _ Hk1) as [Hk2 Hnk].
        by apply NoDup_cons.
      * simpl heap. rewrite Hdom4. unfold s3. simpl.
        rewrite dom_insert_lookup_L by (rewrite Hx2; eauto).
        rewrite Hdom2, Hdom1. rewrite !fmap_app, !fmap_cons.
        rewrite !list_to_set_app_L, !list_to_set_cons. set_solver.
      * simpl heap_buffers. rewrite Hb4. unfold s3. simpl.
        rewrite Hb2, Hbuf1, !length_app. simpl. lia.
      * simpl g_cache_map. rewrite Hm4. unfold s3. simpl.
        rewrite Hm2, Hmap1. by apply index_of_move.
    + apply Forall_cons. split; [lia|].
      rewrite !Forall_app, Forall_cons in Hpos.
      apply Forall_app. rewrite Forall_app in Hpos. tauto.
    + simpl g_cache_current_size. rewrite Hsz4. unfold s3. simpl.
      rewrite Hsz2, Hsz1, size_add_sub.
      * rewrite !total_app. simpl. lia.
      * rewrite SIZE_MOD_eq, !total_app. unfold MAX_CACHE_SIZE in *. simpl. lia.
    + simpl. rewrite total_app. lia.
    + done.
  - intros ev1 y ev2 E'. specialize (Hmin _ _ _ E').
    revert Hmin. rewrite !total_app. simpl. lia.
Qed.

(** Updating a present key whose entry survives eviction, with the
    payload allocation failing: the entry is erased. *)
Lemma cache_add_update_fail_min s al x bl fuel a d length :
  Inv s (al ++ x :: bl) →
  0 < length ≤ MAX_CACHE_SIZE →
  (List.length (al ++ x :: bl) ≤ fuel)%nat →
  total al + length ≤ MAX_CACHE_SIZE →
  malloc_ok a = false →
  ∃ kept2 evicted s',
    bl = kept2 ++ evicted ∧
    cache_add fuel a (Some (e_key x)) (Some d) length s = Done (tt, s') ∧
    Inv s' (al ++ kept2) ∧
    (∀ ev1 y ev2, evicted = ev1 ++ y :: ev2 →
       MAX_CACHE_SIZE < total (al ++ kept2 ++ ev1 ++ [y]) + length).
Proof.
  intros HInv Hlen Hfuel Hroom Hok.
  destruct (update_evict_spec _ _ _ _ _ _ HInv Hlen Hfuel)
    as (kept & ev & s1 & E & Hrun & Hrep1 & Hsz1 & Hmu1 & Hfit & Hmin).
  destruct (update_survives _ _ _ _ _ _ E Hmin Hroom) as (k2 & -> & ->).
  rewrite (cache_add_enter_update _ _ _ _ _ _ _ _ HInv Hlen).
  pose proof (Inv_pos_len _ _ x HInv) as Hxlen.
  destruct HInv as [Hrep Hpos Hsz Hcap Hmu].
  destruct (rep_lookup _ _ _ _ Hrep) as [Hx _].
  destruct (rep_lookup _ _ _ _ Hrep1) as [Hx1 Hm1].
  destruct Hrep1 as [Hl1 Hk1 Hdom1 Hbuf1 Hmap1].
  destruct (detach_spec _ _ _ _ Hl1)
    as (s2 & Hdet & Hl2 & Hx2 & Hdom2 & Hm2 & Hsz2 & Hmu2 & Hb2).
  rewrite Hx1 in Hx2.
  unfold cache_add_update.
  exec. simpl. exec. simpl. exec.
  rewrite (bind_Done _ _ _ _ _ Hrun), (bind_Done _ _ _ _ _ Hdet).
  repeat (exec; simpl). rewrite Hok. repeat (exec; simpl).
  unfold map_erase. exec. simpl. rewrite Hm2, Hm1.
  repeat (exec; simpl). unfold free_cache_element.
  repeat (exec; simpl). norm. rewrite !delete_insert_eq.
  exists k2, ev. eexists. split; [done|]. split; [reflexivity|].
  pose proof (linked_nodup _ _ Hl1) as Hnd1.
  destruct (NoDup_remove_middle e_ptr _ _ _ Hnd1) as [Hnd2 Hni].
  destruct (NoDup_remove_middle e_key _ _ _ Hk1) as [Hk2 Hnk].
  pose proof (total_nonneg al). pose proof (total_nonneg k2).
  rewrite !total_app in Hfit. simpl in Hfit.
  split.
  - constructor.
    + constructor; simpl.
      * destruct Hl2 as [? ? ? ?]. constructor; try done.
        by apply dseg_delete_ne.
      * done.
      * rewrite dom_delete_L, Hdom2, Hdom1. rewrite !fmap_app, !fmap_cons.
        rewrite !list_to_set_app_L, !list_to_set_cons.
        rewrite fmap_app, elem_of_app in Hni. set_solver.
      * rewrite Hb2, Hbuf1, !length_app. simpl. lia.
      * rewrite Hmap1. by apply index_of_delete.
    + rewrite !Forall_app, Forall_cons in Hpos.
      apply Forall_app. rewrite Forall_app in Hpos. tauto.
    + simpl. rewrite Hsz2, Hsz1. unfold size_sub.
      rewrite !total_app. simpl. rewrite Z.mod_small; [lia|].
      rewrite SIZE_MOD_eq. unfold MAX_CACHE_SIZE in *. lia.
    + rewrite total_app. lia.
    + done.
  - intros ev1 y ev2 E'. specialize (Hmin _ _ _ E').
    revert Hmin. rewrite !total_app. simpl. lia.
Qed.

Lemma cache_add_update_fail s al x bl fuel a d length :
  Inv s (al ++ x :: bl) →
  0 < length ≤ MAX_CACHE_SIZE →
  (List.length (al ++ x :: bl) ≤ fuel)%nat →
  total al + length ≤ MAX_CACHE_SIZE →
  malloc_ok a = false →
  ∃ kept2 evicted s',
    bl = kept2 ++ evicted ∧
    cache_add fuel a (Some (e_key x)) (Some d) length s = Done (tt, s') ∧
    Inv s' (al ++ kept2).
Proof.
  intros HInv Hlen Hfuel Hroom Hok.
  destruct (cache_add_update_fail_min _ _ _ _ fuel a d _
              HInv Hlen Hfuel Hroom Hok)
    as (kept2 & ev & s' & E & Hrun & HInv' & _).
  by exists kept2, ev, s'.
Qed.

(** Updating a present key when the entries used more recently, with
    the new payload, exceed the capacity: the eviction loop frees the
    entry that is being updated, and the struct is used afterwards. *)
Lemma cache_add_update_undefined s al x bl fuel a d length :
  Inv s (al ++ x :: bl) →
  0 < length ≤ MAX_CACHE_SIZE →
  (List.length (al ++ x :: bl) ≤ fuel)%nat →
  MAX_CACHE_SIZE < total al + length →
  cache_add fuel a (Some (e_key x)) (Some d) length s = Undefined.
Proof.
  intros HInv Hlen Hfuel Hfull.
  destruct (update_evict_spec _ _ _ _ _ _ HInv Hlen Hfuel)
    as (kept & ev & s1 & E & Hrun & Hrep1 & Hsz1 & Hmu1 & Hfit & Hmin).
  destruct (update_evicted _ _ _ _ _ _ E (proj2 Hfit) Hfull) as (e1 & -> & ->).
  rewrite (cache_add_enter_update _ _ _ _ _ _ _ _ HInv Hlen).
  destruct HInv as [Hrep Hpos Hsz Hcap Hmu].
  destruct (rep_lookup _ _ _ _ Hrep) as [Hx _].
  assert (Hgone : heap s1 !! e_ptr x = None).
  { apply not_elem_of_dom. rewrite (rep_dom _ _ Hrep1).
    rewrite elem_of_list_to_set.
    pose proof (linked_nodup _ _ (rep_linked _ _ Hrep)) as Hnd.
    apply (NoDup_remove_middle e_ptr) in Hnd as [_ Hni].
    revert Hni. rewrite !fmap_app, !elem_of_app. tauto. }
  unfold cache_add_update.
  exec. simpl. exec. simpl. exec.
  rewrite (bind_Done _ _ _ _ _ Hrun).
  unfold detach_node_unlocked, load, mbind, cache_op_bind. by rewrite Hgone.
Qed.

(** ** The invariant and the index *)

Lemma Inv_cache_init : Inv cache_init [].
Proof.
  constructor; try done.
  constructor; try done.
  - constructor; try done. apply NoDup_nil_2.
  - apply NoDup_nil_2.
Qed.

Lemma index_fold_total (h : gmap ptr cache_element) al :
  NoDup (e_key <$> al) →
  (∀ x, x ∈ al → ∃ e, h !! e_ptr x = Some e ∧ len e = e_len x) →
  map_fold (λ _ p acc,
              match h !! p with
              | Some e => len e + acc
              | None => acc
              end) 0 (index_of al) = total al.
Proof.
  induction al as [|x al IH]; intros Hnd Hh.
  - unfold index_of. simpl. by rewrite map_fold_empty.
  - rewrite fmap_cons in Hnd. apply NoDup_cons in Hnd as [Hni Hnd].
    rewrite index_of_cons, map_fold_insert_L.
    + destruct (Hh x) as (e & -> & ->); [by left|].
      simpl. f_equal. apply IH; [done|]. intros y Hy. apply Hh. by right.
    + intros j1 j2 z1 z2 y _ _ _.
      destruct (h !! z1), (h !! z2); lia.
    + by apply index_of_lookup_None.
Qed.

(** Under the invariant, [current_size] is the sum of the [len] fields
    of the entries reachable from the index, within the capacity. *)
Lemma Inv_index_total s al :
  Inv s al →
  g_cache_current_size s = index_total s ∧
  g_cache_current_size s ≤ MAX_CACHE_SIZE.
Proof.
  intros [Hrep Hpos Hsz Hcap Hmu]. split; [|by rewrite Hsz].
  unfold index_total. rewrite (rep_map _ _ Hrep), Hsz. symmetry.
  apply index_fold_total; [apply (rep_keys _ _ Hrep)|].
  intros x Hx. apply list_elem_of_split in Hx as (l1 & l2 & ->).
  destruct (rep_lookup _ _ _ _ Hrep) as [-> _]. eauto.
Qed.

(** ** Every valid call of [cache_add] *)

(** A valid call either completes and re-establishes the invariant, or
    it is the update of an entry that its own eviction loop frees. *)
Lemma cache_add_total s al fuel a k d length :
  Inv s al →
  0 < length ≤ MAX_CACHE_SIZE → length ≤ Z.of_nat (List.length d) →
  (List.length al ≤ fuel)%nat →
  (∃ s' al',
     cache_add fuel a (Some k) (Some d) length s = Done (tt, s') ∧
     Inv s' al') ∨
  (cache_add fuel a (Some k) (Some d) length s = Undefined ∧
   ∃ al1 x al2,
     al = al1 ++ x :: al2 ∧ e_key x = k ∧
     MAX_CACHE_SIZE < total al1 + length).
Proof.
  intros HInv Hlen Hd Hfuel.
  destruct (decide (k ∈ e_key <$> al)) as [Hin|Hni].
  - apply list_elem_of_fmap in Hin as (x & -> & Hx).
    apply list_elem_of_split in Hx as (al1 & al2 & ->).
    destruct (Z_le_gt_dec (total al1 + length) MAX_CACHE_SIZE) as [Hroom|Hfull].
    + left. destruct (malloc_ok a) eqn:Hok.
      * destruct (cache_add_update_ok _ _ _ _ fuel a d _ HInv Hlen Hd Hfuel Hroom Hok)
          as (k2 & ev & s' & _ & Hrun & HInv' & _). eauto.
      * destruct (cache_add_update_fail _ _ _ _ fuel a d _ HInv Hlen Hfuel Hroom Hok)
          as (k2 & ev & s' & _ & Hrun & HInv'). eauto.
    + right. split.
      * apply (cache_add_update_undefined _ _ _ _ _ _ _ _ HInv Hlen Hfuel). lia.
      * exists al1, x, al2. split_and!; [done|done|lia].
  - left. destruct (calloc_ok a && strdup_ok a && malloc_ok a) eqn:Hok.
    + assert (a = all_ok) as ->.
      { destruct a as [[] [] []]; simpl in Hok; try done. }
      destruct (cache_add_insert_ok _ _ fuel k d _ HInv Hni Hlen Hd Hfuel)
        as (kept & ev & p & s' & _ & Hrun & HInv' & _). eauto.
    + destruct (cache_add_insert_fail _ _ fuel a k d _ HInv Hni Hlen Hfuel Hok)
        as (kept & ev & s1 & _ & _ & Hrun & HInv'). eauto.
Qed.

(** [cache_find] keeps the invariant. *)
Lemma cache_find_total s al k :
  Inv s al →
  ∃ r s' al', cache_find (Some k) s = Done (r, s') ∧ Inv s' al' ∧ al' ≡ₚ al.
Proof.
  intros HInv.
  destruct (decide (k ∈ e_key <$> al)) as [Hin|Hni].
  - apply list_elem_of_fmap in Hin as (x & -> & Hx).
    apply list_elem_of_split in Hx as (al1 & al2 & ->).
    destruct (cache_find_hit _ _ _ _ HInv) as (s' & Hrun & HInv' & _).
    exists (Some (e_ptr x)), s', (x :: al1 ++ al2).
    split_and!; [done|done|apply Permutation_middle].
  - exists None, s, al. split_and!; [by apply (cache_find_miss s al)|done|done].
Qed.

(** ** Lock discipline of the public operations

    In the sequential reading of the model: an operation that passes
    its argument checks takes the mutex first (it blocks when the
    mutex is held) and every path on which it returns, the error
    paths included, has released it. *)

Lemma releases_bind {A B} (m : cache_op A) (f : A → cache_op B) :
  (∀ a, releases (f a)) → releases (m ≫= f).
Proof.
  intros Hf s r s'. unfold mbind, cache_op_bind.
  destruct (m s) as [[a s1]| | |]; [|done..]. apply Hf.
Qed.

Lemma releases_unlock : releases mutex_unlock.
Proof. by intros s r s' [= _ <-]. Qed.

Lemma releases_unlock_ret {A} (r : A) :
  releases (mutex_unlock ≫= λ _, mret r).
Proof. by intros s r' s' [= _ <-]. Qed.

Lemma cache_find_releases k : releases (cache_find (Some k)).
Proof.
  unfold cache_find. do 3 (apply releases_bind; intros).
  apply releases_unlock_ret.
Qed.

Lemma cache_add_update_releases fuel a p d length :
  releases (cache_add_update fuel a p d length).
Proof.
  unfold cache_add_update. do 11 (apply releases_bind; intros).
  destruct (is_null _); repeat (apply releases_bind; intros);
    apply releases_unlock.
Qed.

Lemma cache_add_insert_releases fuel a k d length :
  releases (cache_add_insert fuel a k d length).
Proof.
  unfold cache_add_insert. apply releases_bind; intros _.
  apply releases_bind; intros new_element.
  destruct new_element as [p|]; [|apply releases_unlock].
  do 5 (apply releases_bind; intros).
  destruct (_ || _); repeat (apply releases_bind; intros);
    apply releases_unlock.
Qed.

Lemma cache_add_releases fuel a k d length :
  0 < length ≤ MAX_CACHE_SIZE →
  releases (cache_add fuel a (Some k) (Some d) length).
Proof.
  intros Hlen. unfold cache_add. rewrite valid_length_test by done.
  apply releases_bind; intros _.
  apply releases_bind; intros existing_element.
  destruct existing_element;
    [apply cache_add_update_releases|apply cache_add_insert_releases].
Qed.

Lemma cache_find_acquires k s :
  g_cache_mutex s = true → cache_find (Some k) s = Blocked.
Proof.
  intros H. unfold cache_find, mbind, cache_op_bind, mutex_lock.
  by rewrite H.
Qed.

Lemma cache_add_acquires fuel a k d length s :
  0 < length ≤ MAX_CACHE_SIZE → g_cache_mutex s = true →
  cache_add fuel a (Some k) (Some d) length s = Blocked.
Proof.
  intros Hlen H. unfold cache_add. rewrite valid_length_test by done.
  unfold mbind, cache_op_bind, mutex_lock. by rewrite H.
Qed.

(** ** Consequences for the size invariant *)

(** Every valid call of [cache_add] that returns leaves
    [current_size] equal to the sum of the sizes of the entries
    reachable from the index, within the capacity. *)
Lemma cache_add_keeps_size_invariant s al fuel a k d length s' :
  Inv s al →
  0 < length ≤ MAX_CACHE_SIZE → length ≤ Z.of_nat (List.length d) →
  (List.length al ≤ fuel)%nat →
  cache_add fuel a (Some k) (Some d) length s = Done (tt, s') →
  g_cache_current_size s' = index_total s' ∧
  g_cache_current_size s' ≤ MAX_CACHE_SIZE.
Proof.
  intros HInv Hlen Hd Hfuel Hrun.
  destruct (cache_add_total _ _ fuel a k d _ HInv Hlen Hd Hfuel)
    as [(s1 & al' & Hrun' & HInv')|[Hrun' _]]; [|congruence].
  rewrite Hrun in Hrun'. injection Hrun' as <-.
  by apply (Inv_index_total _ al').
Qed.

(** So does every call of [cache_find]. *)
Lemma cache_find_keeps_size_invariant s al url_ r s' :
  Inv s al →
  cache_find url_ s = Done (r, s') →
  g_cache_current_size s' = index_total s' ∧
  g_cache_current_size s' ≤ MAX_CACHE_SIZE.
Proof.
  intros HInv Hrun. destruct url_ as [k|].
  - destruct (cache_find_total _ _ k HInv) as (r1 & s1 & al' & Hrun' & HInv' & _).
    rewrite Hrun in Hrun'. injection Hrun' as <- <-.
    by apply (Inv_index_total _ al').
  - injection Hrun as <- <-. by apply (Inv_index_total _ al).
Qed.

(** When the updated entry survives the eviction loop and the payload
    allocation fails, the entry is erased: it is found no more and
    [current_size] counts the remaining entries only. *)
Lemma cache_add_update_fail_erases s al x bl fuel a d length :
  Inv s (al ++ x :: bl) →
  0 < length ≤ MAX_CACHE_SIZE →
  (List.length (al ++ x :: bl) ≤ fuel)%nat →
  total al + length ≤ MAX_CACHE_SIZE →
  malloc_ok a = false →
  ∃ kept2 evicted s',
    bl = kept2 ++ evicted ∧
    cache_add fuel a (Some (e_key x)) (Some d) length s = Done (tt, s') ∧
    Inv s' (al ++ kept2) ∧
    g_cache_map s' !! e_key x = None ∧
    cache_find (Some (e_key x)) s' = Done (None, s') ∧
    g_cache_current_size s' = total (al ++ kept2).
Proof.
  intros HInv Hlen Hfuel Hroom Hok.
  destruct (cache_add_update_fail _ _ _ _ fuel a d _ HInv Hlen Hfuel Hroom Hok)
    as (k2 & ev & s' & -> & Hrun & HInv').
  exists k2, ev, s'.
  pose proof (rep_keys _ _ (inv_rep _ _ HInv)) as Hnd.
  apply (NoDup_remove_middle e_key) in Hnd as [_ Hni].
  assert (Hni' : e_key x ∉ e_key <$> al ++ k2).
  { revert Hni. rewrite !fmap_app, !elem_of_app. tauto. }
  split_and!; [done|done|done| | |apply HInv'].
  - rewrite (rep_map _ _ (inv_rep _ _ HInv')). by apply index_of_lookup_None.
  - by apply (cache_find_miss _ (al ++ k2)).
Qed.

(** ** Further lemmas on the eviction loop *)

(** The eviction loop of the update path frees the entry that is being
    updated when the entries used more recently, with the new payload,
    exceed the capacity. *)
Lemma update_loop_frees_entry s al x bl fuel length :
  Inv s (al ++ x :: bl) →
  0 < length ≤ MAX_CACHE_SIZE →
  (List.length (al ++ x :: bl) ≤ fuel)%nat →
  MAX_CACHE_SIZE < total al + length →
  ∃ s1,
    evict_loop fuel length (update_start s (e_len x)) = Done (tt, s1) ∧
    heap s1 !! e_ptr x = None ∧
    g_cache_map s1 !! e_key x = None.
Proof.
  intros HInv Hlen Hfuel Hfull.
  destruct (update_evict_spec _ _ _ _ _ _ HInv Hlen Hfuel)
    as (kept & ev & s1 & E & Hrun & Hrep1 & Hsz1 & Hmu1 & Hfit & Hmin).
  destruct (update_evicted _ _ _ _ _ _ E (proj2 Hfit) Hfull) as (e1 & -> & ->).
  destruct HInv as [Hrep Hpos Hsz Hcap Hmu].
  exists s1. split; [done|]. split.
  - apply not_elem_of_dom. rewrite (rep_dom _ _ Hrep1).
    rewrite elem_of_list_to_set.
    pose proof (linked_nodup _ _ (rep_linked _ _ Hrep)) as Hnd.
    apply (NoDup_remove_middle e_ptr) in Hnd as [_ Hni].
    revert Hni. rewrite !fmap_app, !elem_of_app. tauto.
  - rewrite (rep_map _ _ Hrep1). apply index_of_lookup_None.
    pose proof (rep_keys _ _ Hrep) as Hnd.
    apply (NoDup_remove_middle e_key) in Hnd as [_ Hni].
    revert Hni. rewrite !fmap_app, !elem_of_app. tauto.
Qed.




(** ** The concrete cache *)

Lemma state_ba_reached :
  (cache_add 0 all_ok (Some "a") (Some (payload 30)) 30;;
   cache_add 0 all_ok (Some "b") (Some (payload 60)) 60) cache_init
  = Done (tt, state_ba).
Proof. vm_compute. reflexivity. Qed.

Lemma NoDup_by_decide {A} `{EqDecision A} (l : list A) :
  bool_decide (NoDup l) = true → NoDup l.
Proof. apply bool_decide_eq_true_1. Qed.

Lemma Inv_state_ba : Inv state_ba [entry_b; entry_a].
Proof.
  constructor.
  - constructor.
    + constructor.
      * by apply NoDup_by_decide.
      * reflexivity.
      * reflexivity.
      * simpl. split_and!; [reflexivity|reflexivity|done].
    + by apply NoDup_by_decide.
    + by vm_compute.
    + reflexivity.
    + by vm_compute.
  - repeat constructor.
  - reflexivity.
  - by vm_compute.
  - reflexivity.
Qed.

Lemma rep_payload_perm s s' al al' p :
  rep s al → rep s' al' → al ≡ₚ al' → payload_of s' p = payload_of s p.
Proof.
  intros Hrep Hrep' Hperm. unfold payload_of.
  destruct (decide (p ∈ e_ptr <$> al)) as [Hin|Hni].
  - apply list_elem_of_fmap in Hin as (x & -> & Hx).
    assert (Hx' : x ∈ al') by by rewrite <-Hperm.
    apply list_elem_of_split in Hx as (l1 & l2 & ->).
    apply list_elem_of_split in Hx' as (l1' & l2' & ->).
    destruct (rep_lookup _ _ _ _ Hrep) as [-> _].
    by destruct (rep_lookup _ _ _ _ Hrep') as [-> _].
  - assert (Hni' : p ∉ e_ptr <$> al') by by rewrite <-Hperm.
    rewrite <-(elem_of_list_to_set (C:=gset ptr)), <-(rep_dom _ _ Hrep) in Hni.
    rewrite <-(elem_of_list_to_set (C:=gset ptr)), <-(rep_dom _ _ Hrep') in Hni'.
    apply not_elem_of_dom in Hni, Hni'. by rewrite Hni, Hni'.
Qed.

Ltac not_in_list :=
  let H := fresh in
  simpl; intros H;
  repeat (apply elem_of_cons in H as [H|H]; [discriminate H|]);
  by apply elem_of_nil in H.

(** ** The scenarios of [test_main.c] *)

(** [test_add_and_find]: an item that was added is found, with its
    length and its bytes. *)
Example test_add_and_find :
  ∃ s,
    (cache_add 0 all_ok (Some "http://example.com/resource")
       (Some (payload 28)) 28;;
     r ← cache_find (Some "http://example.com/resource");
     read_entry r) cache_init
    = Done (Some (28, Live (payload 28)), s).
Proof. eexists. vm_compute. reflexivity. Qed.

(** [test_lru_eviction]: with three items of 26, 27 and 26 bytes in
    the cache, all found, a fourth item of 36 bytes evicts the first
    one and only that one. *)
Example test_lru_eviction :
  ∃ s,
    (cache_add 4 all_ok (Some "http://item1.com") (Some (payload 26)) 26;;
     cache_add 4 all_ok (Some "http://item2.com") (Some (payload 27)) 27;;
     cache_add 4 all_ok (Some "http://item3.com") (Some (payload 26)) 26;;
     r1 ← cache_find (Some "http://item1.com");
     r2 ← cache_find (Some "http://item2.com");
     r3 ← cache_find (Some "http://item3.com");
     cache_add 4 all_ok (Some "http://item4.com") (Some (payload 36)) 36;;
     r4' ← cache_find (Some "http://item4.com");
     r3' ← cache_find (Some "http://item3.com");
     r2' ← cache_find (Some "http://item2.com");
     r1' ← cache_find (Some "http://item1.com");
     n ← get_current_size;
     mret (found <$> [r1; r2; r3; r4'; r3'; r2'; r1'], n)) cache_init
    = Done (([true; true; true; true; true; true; false], 89), s).
Proof. eexists. vm_compute. reflexivity. Qed.

(** [test_update_item]: an update replaces the payload and makes the
    item the most recently used one, so that the next eviction takes
    the other item. *)
Example test_update_item :
  ∃ s,
    (cache_add 6 all_ok (Some "url1") (Some (replicate 8 Byte.x6f)) 8;;
     cache_add 6 all_ok (Some "url2") (Some (payload 9)) 9;;
     cache_add 6 all_ok (Some "url1") (Some (replicate 17 Byte.x4e)) 17;;
     r ← cache_find (Some "url1");
     e ← read_entry r;
     cache_add 6 all_ok (Some "url3") (Some (payload 22)) 22;;
     cache_add 6 all_ok (Some "url4") (Some (payload 22)) 22;;
     cache_add 6 all_ok (Some "url5") (Some (payload 22)) 22;;
     cache_add 6 all_ok (Some "url6") (Some (payload 15)) 15;;
     r1 ← cache_find (Some "url1");
     r2 ← cache_find (Some "url2");
     n ← get_current_size;
     mret (e, found <$> [r1; r2], n)) cache_init
    = Done ((Some (17, Live (replicate 17 Byte.x4e)), [true; false], 98), s).
Proof. eexists. vm_compute. reflexivity. Qed.

(** ** The claims *)

(** C1. The size invariant is broken by the update of the least
    recently used entry. In the cache reached by adding "a" (30 bytes)
    and then "b" (60 bytes), which satisfies the invariant, the call
    [cache_add("a", .., 50)] subtracts the 30 bytes of "a", evicts "a"
    itself and subtracts its 30 bytes again: at the end of the
    eviction loop [current_size] is 30 while the index holds "b"
    alone, of size 60. The call then uses the freed struct and has no
    defined outcome. *)
Theorem C1_size_invariant_broken_by_lru_update :
  (cache_add 0 all_ok (Some "a") (Some (payload 30)) 30;;
   cache_add 0 all_ok (Some "b") (Some (payload 60)) 60) cache_init
  = Done (tt, state_ba) ∧
  g_cache_current_size state_ba = index_total state_ba ∧
  (∃ s1,
     evict_loop 2 50 (update_start state_ba 30) = Done (tt, s1) ∧
     g_cache_current_size s1 = 30 ∧
     index_total s1 = 60) ∧
  cache_add 2 all_ok (Some "a") (Some (payload 50)) 50 state_ba = Undefined.
Proof.
  split_and!.
  - by vm_compute.
  - by vm_compute.
  - eexists. split_and!; by vm_compute.
  - by vm_compute.
Qed.



(** C3. [cache_find]. A null key gives "not found" and leaves every
    field of the state as it was, the mutex included, whether or not
    the mutex is held: the lock is not taken. A key present in the
    index moves its entry to the head of the recency list, the other
    entries keeping their order, and returns the address of the entry.
    A key absent from the index gives "not found" and leaves the state
    as it was. In all cases the payload buffer of every struct is the
    one it was before the call. *)
Theorem C3_cache_find :
  (∀ s, cache_find None s = Done (None, s)) ∧
  (∀ s al x bl,
     Inv s (al ++ x :: bl) →
     ∃ s', cache_find (Some (e_key x)) s = Done (Some (e_ptr x), s') ∧
           Inv s' (x :: al ++ bl) ∧
           ∀ p, payload_of s' p = payload_of s p) ∧
  (∀ s al k,
     Inv s al → k ∉ e_key <$> al →
     cache_find (Some k) s = Done (None, s)).
Proof.
  split_and!.
  - done.
  - intros s al x bl HInv.
    destruct (cache_find_hit _ _ _ _ HInv) as (s' & Hrun & HInv' & _).
    exists s'. split_and!; [done|done|].
    intros p. apply (rep_payload_perm _ _ (al ++ x :: bl) (x :: al ++ bl));
      [apply HInv|apply HInv'|]. symmetry. apply Permutation_middle.
  - apply cache_find_miss.
Qed.

Lemma C3_witness :
  Inv state_ba ([entry_b] ++ entry_a :: []) ∧
  (∃ s', cache_find (Some "a") state_ba = Done (Some 1%positive, s') ∧
         Inv s' (entry_a :: [entry_b] ++ []) ∧
         ∀ p, payload_of s' p = payload_of state_ba p) ∧
  cache_find (Some "c") state_ba = Done (None, state_ba).
Proof.
  destruct C3_cache_find as (_ & Hhit & Hmiss).
  split_and!.
  - apply Inv_state_ba.
  - apply (Hhit state_ba [entry_b] entry_a []). apply Inv_state_ba.
  - apply (Hmiss state_ba [entry_b; entry_a] "c").
    + apply Inv_state_ba.
    + not_in_list.
Defined.

(** C4. A call of [cache_add] with a null key, a null payload, a zero
    length or a length above [MAX_CACHE_SIZE] returns and leaves the
    whole state (the index, the recency list, [current_size]) as it
    was. *)
Theorem C4_cache_add_invalid_is_noop fuel a url_ data_ length s :
  url_ = None ∨ data_ = None ∨ length = 0 ∨ MAX_CACHE_SIZE < length →
  cache_add fuel a url_ data_ length s = Done (tt, s).
Proof.
  intros H. unfold cache_add.
  destruct url_ as [k|]; [|done]. destruct data_ as [d|]; [|done].
  destruct H as [?|[?|[->|H]]]; [done|done|done|].
  apply Z.ltb_lt in H. rewrite H. by rewrite orb_true_r.
Qed.

Lemma C4_witness :
  cache_add 0 all_ok (Some "a") (Some (payload 101)) 101 state_ba
  = Done (tt, state_ba).
Proof.
  apply C4_cache_add_invalid_is_noop.
  right. right. right. unfold MAX_CACHE_SIZE. lia.
Defined.

(** C5. On the insert path, when [calloc], [strdup] or [malloc]
    fails, the call returns, and the state it leaves is the state at
    the end of the eviction phase with the lock released: the heap
    holds no struct and no buffer that was not there, the index and
    the recency list hold no entry for the key. *)
Theorem C5_insert_allocation_failure s al fuel a k d length :
  Inv s al → k ∉ e_key <$> al →
  0 < length ≤ MAX_CACHE_SIZE →
  (List.length al ≤ fuel)%nat →
  calloc_ok a && strdup_ok a && malloc_ok a = false →
  ∃ kept evicted s1,
    al = kept ++ evicted ∧
    evict_loop fuel length (with_mutex true s) = Done (tt, s1) ∧
    cache_add fuel a (Some k) (Some d) length s
    = Done (tt, with_mutex false s1) ∧
    Inv (with_mutex false s1) kept ∧
    g_cache_map s1 !! k = None.
Proof.
  intros HInv Hk Hlen Hfuel Ha.
  destruct (cache_add_insert_fail _ _ fuel a k d _ HInv Hk Hlen Hfuel Ha)
    as (kept & ev & s1 & -> & Hloop & Hrun & HInv').
  exists kept, ev, s1. split_and!; try done.
  change (g_cache_map (with_mutex false s1) !! k = None).
  rewrite (rep_map _ _ (inv_rep _ _ HInv')). apply index_of_lookup_None.
  revert Hk. rewrite fmap_app, elem_of_app. tauto.
Qed.

Lemma C5_witness :
  Inv state_ba [entry_b; entry_a] ∧
  ∃ kept evicted s1,
    [entry_b; entry_a] = kept ++ evicted ∧
    evict_loop 2 20 (with_mutex true state_ba) = Done (tt, s1) ∧
    cache_add 2 (mk_alloc_results true false true)
      (Some "c") (Some (payload 20)) 20 state_ba
    = Done (tt, with_mutex false s1) ∧
    Inv (with_mutex false s1) kept ∧
    g_cache_map s1 !! "c" = None.
Proof.
  split; [apply Inv_state_ba|].
  apply (C5_insert_allocation_failure state_ba [entry_b; entry_a] 2).
  - apply Inv_state_ba.
  - not_in_list.
  - unfold MAX_CACHE_SIZE. lia.
  - simpl. lia.
  - reflexivity.
Defined.

(** C6. The update of the least recently used entry with a failing
    payload allocation. In the cache reached by adding "a" (30 bytes)
    and then "b" (60 bytes), the call [cache_add("a", .., 50)] whose
    [malloc] fails does not return with "a" erased and accounted for:
    the eviction loop has freed "a" before, leaving [current_size] at
    30 for an index that holds "b" of size 60, and the call uses the
    freed struct before it reaches the allocation. *)
Theorem C6_update_failure_after_self_eviction :
  (∃ s1,
     evict_loop 2 50 (update_start state_ba 30) = Done (tt, s1) ∧
     heap s1 !! 1%positive = None ∧
     g_cache_current_size s1 = 30 ∧
     index_total s1 = 60) ∧
  cache_add 2 (mk_alloc_results true true false)
    (Some "a") (Some (payload 50)) 50 state_ba = Undefined.
Proof.
  split.
  - eexists. split_and!; by vm_compute.
  - by vm_compute.
Qed.

(** C7. For a key present in the cache, any number [n] of successive
    calls of [cache_find] on it return the address of the same entry
    every time; after them [current_size] is what it was, the payload
    of the entry is the same bytes, and so is the payload of every
    other struct. *)
Theorem C7_repeated_find n s al x :
  Inv s al → x ∈ al →
  ∃ s' al',
    cache_find_n n (Some (e_key x)) s
    = Done (replicate n (Some (e_ptr x)), s') ∧
    Inv s' al' ∧ al' ≡ₚ al ∧
    g_cache_current_size s' = g_cache_current_size s ∧
    payload_of s' (e_ptr x) = Some (Live (e_bytes x)) ∧
    ∀ p, payload_of s' p = payload_of s p.
Proof.
  revert s al. induction n as [|n IH]; intros s al HInv Hx.
  - exists s, al. split_and!; try done.
    apply list_elem_of_split in Hx as (l1 & l2 & ->).
    unfold payload_of.
    by destruct (rep_lookup _ _ _ _ (inv_rep _ _ HInv)) as [-> _].
  - pose proof Hx as Hx0.
    apply list_elem_of_split in Hx as (l1 & l2 & ->).
    destruct (cache_find_hit _ _ _ _ HInv) as (s1 & Hrun & HInv1 & Hsz1).
    destruct (IH s1 (x :: l1 ++ l2) HInv1 ltac:(by left))
      as (s' & al' & Hrun' & HInv' & Hperm & Hsz' & Hpay & Hall).
    exists s', al'. simpl.
    rewrite (bind_Done _ _ _ _ _ Hrun), (bind_Done _ _ _ _ _ Hrun').
    assert (Hperm1 : x :: l1 ++ l2 ≡ₚ l1 ++ x :: l2) by apply Permutation_middle.
    split_and!; [done|done|by rewrite Hperm|congruence|done|].
    intros p. rewrite Hall.
    apply (rep_payload_perm _ _ (l1 ++ x :: l2) (x :: l1 ++ l2));
      [apply HInv|apply HInv1|done].
Qed.

Lemma C7_witness :
  Inv state_ba [entry_b; entry_a] ∧
  ∃ s' al',
    cache_find_n 3 (Some "a") state_ba
    = Done ([Some 1%positive; Some 1%positive; Some 1%positive], s') ∧
    Inv s' al' ∧ al' ≡ₚ [entry_b; entry_a] ∧
    g_cache_current_size s' = 90 ∧
    payload_of s' 1%positive = Some (Live (payload 30)) ∧
    ∀ p, payload_of s' p = payload_of state_ba p.
Proof.
  split; [apply Inv_state_ba|].
  apply (C7_repeated_find 3 state_ba [entry_b; entry_a] entry_a).
  - apply Inv_state_ba.
  - right. left.
Defined.

(** C9. The eviction loop of the update path can evict the entry that
    is being updated. Whenever the entries used more recently than the
    updated entry [x], together with the new payload, exceed the
    capacity, the loop reaches [x] at the tail and erases it: at the
    end of the loop the struct of [x] is freed and its key is gone
    from the index. The detach that follows dereferences the freed
    struct, so the call has undefined behaviour. *)
Theorem C9_update_evicts_updated_entry s al x bl fuel a d length :
  Inv s (al ++ x :: bl) →
  0 < length ≤ MAX_CACHE_SIZE →
  (List.length (al ++ x :: bl) ≤ fuel)%nat →
  MAX_CACHE_SIZE < total al + length →
  (∃ s1,
     evict_loop fuel length (update_start s (e_len x)) = Done (tt, s1) ∧
     heap s1 !! e_ptr x = None ∧
     g_cache_map s1 !! e_key x = None) ∧
  cache_add fuel a (Some (e_key x)) (Some d) length s = Undefined.
Proof.
  intros HInv Hlen Hfuel Hfull. split.
  - by apply (update_loop_frees_entry s al x bl).
  - by apply (cache_add_update_undefined s al x bl).
Qed.

Lemma C9_witness :
  Inv state_ba ([entry_b] ++ entry_a :: []) ∧
  (∃ s1,
     evict_loop 2 50 (update_start state_ba 30) = Done (tt, s1) ∧
     heap s1 !! 1%positive = None ∧
     g_cache_map s1 !! "a" = None) ∧
  cache_add 2 all_ok (Some "a") (Some (payload 50)) 50 state_ba = Undefined.
Proof.
  split; [apply Inv_state_ba|].
  apply (C9_update_evicts_updated_entry state_ba [entry_b] entry_a [] 2
           all_ok (payload 50) 50).
  - apply Inv_state_ba.
  - unfold MAX_CACHE_SIZE. lia.
  - simpl. lia.
  - by vm_compute.
Defined.



(** ** Further properties of the engine

    Properties of the list primitives, of eviction, of the public
    operations and of their compositions, beyond the claims above. *)

(** ** Teardown

    [map_destroy] on a state that represents a list of entries frees
    every struct and every buffer. *)

Arguments map_destroy : simpl never.
Arguments cache_destroy : simpl never.

Lemma destroy_elems_spec (pl : list (string * ptr)) :
  ∀ s,
    NoDup pl.*2 →
    (∀ kp, kp ∈ pl →
       ∃ e u d, heap s !! kp.2 = Some e ∧ url e = Live u ∧ data e = Live d) →
    ∃ s',
      foldr (λ kp rest,
               e ← load kp.2;
               u ← free_buffer (url e);
               write kp.2 (set_url u);;
               free_cache_element (Some kp.2);;
               rest)
            (set_map ∅) pl s = Done (tt, s') ∧
      dom (heap s') = dom (heap s) ∖ list_to_set pl.*2 ∧
      heap_buffers s' = (heap_buffers s - 2 * length pl)%nat ∧
      g_cache_map s' = ∅ ∧
      g_cache_head s' = g_cache_head s ∧
      g_cache_tail s' = g_cache_tail s ∧
      g_cache_current_size s' = g_cache_current_size s ∧
      g_cache_mutex s' = g_cache_mutex s.
Proof.
  induction pl as [|[k p] pl IH]; intros s Hnd Hlive.
  - eexists. split; [reflexivity|]. simpl. split_and!; try done.
    + set_solver.
    + lia.
  - simpl in Hnd. apply NoDup_cons in Hnd as [Hp Hnd].
    destruct (Hlive (k, p)) as (e & u & d & He & Hu & Hd); [by left|].
    simpl in He. destruct e as [eu ed el en ep]. simpl in Hu, Hd. subst eu ed.
    cbn [foldr snd]. unfold free_cache_element.
    exec. simpl free_buffer. exec. simpl.
    exec. simpl. exec. simpl.
    match goal with |- ∃ s', _ ?s1 = _ ∧ _ => 
      destruct (IH s1) as (s' & Hrun & Hdom & Hbuf & Hm & Hh & Ht & Hsz & Hmu) end.
    + done.
    + intros kp Hkp. destruct (Hlive kp) as (e & u' & d' & He' & Hu' & Hd'); [by right|].
      exists e, u', d'. split_and!; try done. simpl.
      assert (kp.2 ≠ p).
      { intros <-. apply Hp. apply list_elem_of_fmap. by exists kp. }
      by simplify_map_eq.
    + exists s'. split; [exact Hrun|]. simpl in *.
      split_and!; try done.
      * rewrite Hdom. rewrite !dom_delete_L, !dom_insert_L. set_solver.
      * rewrite Hbuf. lia.
Qed.

Lemma map_destroy_spec s al :
  rep s al →
  ∃ s', map_destroy s = Done (tt, s') ∧
        heap s' = ∅ ∧ heap_buffers s' = 0%nat ∧ g_cache_map s' = ∅ ∧
        g_cache_head s' = g_cache_head s ∧
        g_cache_tail s' = g_cache_tail s ∧
        g_cache_current_size s' = g_cache_current_size s ∧
        g_cache_mutex s' = g_cache_mutex s.
Proof.
  intros Hrep. unfold map_destroy, get_map.
  destruct Hrep as [Hl Hk Hd Hb Hm].
  assert (Hperm : map_to_list (g_cache_map s)
                  ≡ₚ (λ x, (e_key x, e_ptr x)) <$> al).
  { rewrite Hm. apply map_to_list_to_map. by rewrite index_of_fst. }
  assert (Hsnd : (map_to_list (g_cache_map s)).*2 ≡ₚ e_ptr <$> al).
  { rewrite Hperm. by rewrite <-list_fmap_compose. }
  destruct (destroy_elems_spec (map_to_list (g_cache_map s)) s)
    as (s' & Hrun & Hdom & Hbuf & Hm' & Hh' & Ht' & Hsz' & Hmu').
  - rewrite Hsnd. apply Hl.
  - intros [k p] Hkp. rewrite Hperm in Hkp.
    apply list_elem_of_fmap in Hkp as (x & [= -> ->] & Hx).
    apply list_elem_of_split in Hx as (l1 & l2 & ->).
    destruct (rep_lookup s l1 x l2 (mk_rep _ _ Hl Hk Hd Hb Hm)) as [Hx _].
    eexists _, _, _. split; [exact Hx|]. by split.
  - exists s'. split; [exact Hrun|].
    split_and!; try done.
    + apply dom_empty_inv_L. rewrite Hdom, Hd.
      apply set_eq. intros p. rewrite elem_of_difference, !elem_of_list_to_set.
      rewrite Hsnd. set_solver.
    + rewrite Hbuf, Hb. apply Permutation_length in Hperm.
      rewrite Hperm, length_fmap. lia.
Qed.

(** ** The state and the list of entries determine each other *)

Lemma rep_heap_unique s s' al : rep s al → rep s' al → heap s = heap s'.
Proof.
  intros Hr Hr'. apply map_eq. intros p.
  destruct (decide (p ∈ e_ptr <$> al)) as [Hin|Hout].
  - apply list_elem_of_fmap in Hin as (x & -> & Hx).
    apply list_elem_of_split in Hx as (l1 & l2 & ->).
    destruct (rep_lookup _ _ _ _ Hr) as [-> _].
    by destruct (rep_lookup _ _ _ _ Hr') as [-> _].
  - assert (H1 : p ∉ dom (heap s)).
    { rewrite (rep_dom _ _ Hr). by rewrite elem_of_list_to_set. }
    assert (H2 : p ∉ dom (heap s')).
    { rewrite (rep_dom _ _ Hr'). by rewrite elem_of_list_to_set. }
    apply not_elem_of_dom in H1, H2. congruence.
Qed.

Lemma Inv_state_unique s s' al : Inv s al → Inv s' al → s = s'.
Proof.
  intros [Hr _ Hsz _ Hmu] [Hr' _ Hsz' _ Hmu'].
  pose proof (rep_heap_unique _ _ _ Hr Hr') as Hh.
  destruct Hr as [[_ Hhd Htl _] _ _ Hb Hm], Hr' as [[_ Hhd' Htl' _] _ _ Hb' Hm'].
  destruct s, s'. simpl in *. congruence.
Qed.







(** ** Further lemmas on [cache_find] and [cache_add] *)

Lemma cache_find_idem s al k :
  Inv s al →
  ∃ r s', cache_find (Some k) s = Done (r, s') ∧
          cache_find (Some k) s' = Done (r, s').
Proof.
  intros HInv.
  destruct (decide (k ∈ e_key <$> al)) as [Hin|Hout].
  - apply list_elem_of_fmap in Hin as (x & -> & Hx).
    apply list_elem_of_split in Hx as (l1 & l2 & ->).
    destruct (cache_find_hit _ _ _ _ HInv) as (s1 & Hrun & HInv1 & _).
    destruct (cache_find_hit s1 [] x (l1 ++ l2) HInv1) as (s2 & Hrun2 & HInv2 & _).
    exists (Some (e_ptr x)), s1. split; [done|].
    rewrite Hrun2. by rewrite (Inv_state_unique _ _ _ HInv1 HInv2).
  - exists None, s. by rewrite (cache_find_miss _ _ _ HInv Hout).
Qed.


Lemma Inv_entry_found s al x :
  Inv s al → x ∈ al →
  g_cache_map s !! e_key x = Some (e_ptr x) ∧
  payload_of s (e_ptr x) = Some (Live (e_bytes x)).
Proof.
  intros HInv Hx. apply list_elem_of_split in Hx as (l1 & l2 & ->).
  destruct (rep_lookup _ _ _ _ (inv_rep _ _ HInv)) as [Hh Hm].
  split; [done|]. unfold payload_of. by rewrite Hh.
Qed.

Lemma remove_lru_empty s :
  g_cache_tail s = None → remove_lru_element_unlocked s = Done (tt, s).
Proof.
  intros H. unfold remove_lru_element_unlocked, get_tail, mbind, cache_op_bind.
  by rewrite H.
Qed.



Lemma no_eviction_when_fits (front evicted : list entry) length :
  (∀ ev1 y ev2, evicted = ev1 ++ y :: ev2 →
     MAX_CACHE_SIZE < total (front ++ ev1 ++ [y]) + length) →
  total (front ++ evicted) + length ≤ MAX_CACHE_SIZE →
  evicted = [].
Proof.
  intros Hmin Hfit.
  destruct (decide (evicted = [])) as [|Hne]; [done|exfalso].
  destruct (exists_last Hne) as (ev1 & y & ->).
  specialize (Hmin ev1 y [] eq_refl). lia.
Qed.

Lemma state_b_a_detached_reached :
  detach_node_unlocked (Some 1%positive) state_ba
  = Done (tt, state_b_a_detached).
Proof. vm_compute. reflexivity. Qed.

Lemma linked_state_b_a_detached : linked state_b_a_detached [entry_b].
Proof.
  constructor; simpl; try done.
  apply NoDup_by_decide. by vm_compute.
Qed.

(** ** Runs of clients

    Every entry holds at least one byte, so a cache within its capacity
    holds at most [MAX_CACHE_SIZE] entries, and a bound of that many
    iterations is enough for every eviction loop. *)

Lemma total_ge_length al :
  Forall (λ x, 0 < e_len x) al → Z.of_nat (length al) ≤ total al.
Proof.
  induction 1 as [|x al Hx _ IH]; simpl; [done|]. lia.
Qed.

Lemma Inv_length s al : Inv s al → (length al ≤ Z.to_nat MAX_CACHE_SIZE)%nat.
Proof.
  intros [_ Hpos _ Hcap _]. apply total_ge_length in Hpos. lia.
Qed.

Lemma run_call_total fuel c s al :
  Inv s al → call_ok c → (Z.to_nat MAX_CACHE_SIZE ≤ fuel)%nat →
  (∃ s' al', run_call fuel c s = Done (tt, s') ∧ Inv s' al') ∨
  run_call fuel c s = Undefined.
Proof.
  intros HInv Hok Hfuel. pose proof (Inv_length _ _ HInv) as Hn.
  destruct c as [[k|]|a [k|] [d|] n]; simpl.
  - destruct (cache_find_total _ _ k HInv) as (r & s' & al' & Hrun & HInv' & _).
    left. exists s', al'. by rewrite (bind_Done _ _ _ _ _ Hrun).
  - left. by exists s, al.
  - destruct Hok as [Hn0 Hd].
    destruct (decide (0 < n ≤ MAX_CACHE_SIZE)) as [Hlen|Hbad].
    + destruct (cache_add_total _ _ fuel a k d n HInv Hlen Hd ltac:(lia))
        as [(s' & al' & Hrun & HInv')|[Hrun _]]; [left|by right].
      by exists s', al'.
    + left. exists s, al. split; [|done]. unfold cache_add.
      destruct (decide (n = 0)) as [->|Hnz]; [done|].
      assert (H : (MAX_CACHE_SIZE <? n) = true) by (apply Z.ltb_lt; lia).
      by rewrite H, orb_true_r.
  - left. by exists s, al.
  - left. by exists s, al.
  - left. by exists s, al.
Qed.

Lemma run_calls_total fuel cs :
  ∀ s al,
    Inv s al → Forall call_ok cs → (Z.to_nat MAX_CACHE_SIZE ≤ fuel)%nat →
    (∃ s' al', run_calls fuel cs s = Done (tt, s') ∧ Inv s' al') ∨
    run_calls fuel cs s = Undefined.
Proof.
  induction cs as [|c cs IH]; intros s al HInv Hok Hfuel.
  - left. by exists s, al.
  - apply Forall_cons in Hok as [Hc Hcs]. simpl.
    destruct (run_call_total fuel c s al HInv Hc Hfuel)
      as [(s1 & al1 & Hrun & HInv1)|Hund].
    + rewrite (bind_Done _ _ _ _ _ Hrun). by apply (IH s1 al1).
    + right. unfold mbind, cache_op_bind. by rewrite Hund.
Qed.



(** ** The cache as a finite map *)









(** ** The properties *)

(** X1. [detach_node_unlocked] on an entry of the recency list unlinks
    that entry and no other: the entries before and after it keep
    their order and are now neighbours, [head] and [tail] follow. The
    struct itself stays allocated with its contents, and neither the
    index, [current_size], the mutex nor any buffer is touched. *)
Theorem X1_detach_unlinks_entry s al x bl :
  linked s (al ++ x :: bl) →
  ∃ s', detach_node_unlocked (Some (e_ptr x)) s = Done (tt, s') ∧
        linked s' (al ++ bl) ∧
        heap s' !! e_ptr x = heap s !! e_ptr x ∧
        dom (heap s') = dom (heap s) ∧
        heap_buffers s' = heap_buffers s ∧
        g_cache_map s' = g_cache_map s ∧
        g_cache_current_size s' = g_cache_current_size s ∧
        g_cache_mutex s' = g_cache_mutex s.
Proof.
  intros Hl.
  destruct (detach_spec _ _ _ _ Hl)
    as (s' & Hrun & Hl' & Hx & Hdom & Hm & Hsz & Hmu & Hb).
  exists s'. by split_and!.
Qed.

Lemma X1_witness :
  linked state_ba ([entry_b] ++ entry_a :: []) ∧
  ∃ s', detach_node_unlocked (Some 1%positive) state_ba = Done (tt, s') ∧
        linked s' ([entry_b] ++ []) ∧
        heap s' !! 1%positive = heap state_ba !! 1%positive ∧
        dom (heap s') = dom (heap state_ba) ∧
        heap_buffers s' = heap_buffers state_ba ∧
        g_cache_map s' = g_cache_map state_ba ∧
        g_cache_current_size s' = g_cache_current_size state_ba ∧
        g_cache_mutex s' = g_cache_mutex state_ba.
Proof.
  split; [apply Inv_state_ba|].
  apply (X1_detach_unlinks_entry state_ba [entry_b] entry_a []).
  apply Inv_state_ba.
Defined.

(** X2. [attach_node_to_head_unlocked] on a live struct that is not in
    the recency list makes it the head, in front of the entries that
    were there; it becomes the tail as well when the list was empty,
    and the tail is unchanged otherwise. No struct is allocated or
    freed; the index, [current_size], the mutex and the buffers are
    untouched. *)
Theorem X2_attach_puts_entry_at_head s al x nx0 pv0 :
  linked s al →
  heap s !! e_ptr x = Some (node x nx0 pv0) →
  e_ptr x ∉ e_ptr <$> al →
  ∃ s', attach_node_to_head_unlocked (Some (e_ptr x)) s = Done (tt, s') ∧
        linked s' (x :: al) ∧
        g_cache_head s' = Some (e_ptr x) ∧
        (al = [] → g_cache_tail s' = Some (e_ptr x)) ∧
        (al ≠ [] → g_cache_tail s' = g_cache_tail s) ∧
        dom (heap s') = dom (heap s) ∧
        heap_buffers s' = heap_buffers s ∧
        g_cache_map s' = g_cache_map s ∧
        g_cache_current_size s' = g_cache_current_size s ∧
        g_cache_mutex s' = g_cache_mutex s.
Proof.
  intros Hl Hx Hnin.
  destruct (attach_spec _ _ _ _ _ Hl Hx Hnin)
    as (s' & Hrun & Hl' & Hdom & Hm & Hsz & Hmu & Hb).
  exists s'. split_and!; try done.
  - apply Hl'.
  - intros ->. apply Hl'.
  - intros Hne. rewrite (linked_tail _ _ Hl'), (linked_tail _ _ Hl).
    rewrite last_ptr_cons. by apply last_ptr_nonempty.
Qed.

Lemma X2_witness :
  linked state_b_a_detached [entry_b] ∧
  ∃ s', attach_node_to_head_unlocked (Some 1%positive) state_b_a_detached
        = Done (tt, s') ∧
        linked s' [entry_a; entry_b] ∧
        g_cache_head s' = Some 1%positive ∧
        ([entry_b] = [] → g_cache_tail s' = Some 1%positive) ∧
        ([entry_b] ≠ [] → g_cache_tail s' = g_cache_tail state_b_a_detached) ∧
        dom (heap s') = dom (heap state_b_a_detached) ∧
        heap_buffers s' = heap_buffers state_b_a_detached ∧
        g_cache_map s' = g_cache_map state_b_a_detached ∧
        g_cache_current_size s' = g_cache_current_size state_b_a_detached ∧
        g_cache_mutex s' = g_cache_mutex state_b_a_detached.
Proof.
  split; [apply linked_state_b_a_detached|].
  apply (X2_attach_puts_entry_at_head state_b_a_detached [entry_b] entry_a
           None (Some 2%positive)).
  - apply linked_state_b_a_detached.
  - reflexivity.
  - not_in_list.
Defined.

(** X3. [remove_lru_element_unlocked] on a non-empty cache removes the
    tail entry and nothing else: the other entries keep their order,
    [current_size] goes down by the size of the entry (modulo [2^64]),
    its key leaves the index, and its struct and its two buffers are
    freed. *)
Theorem X3_remove_lru_element s al x :
  rep s (al ++ [x]) →
  ∃ s', remove_lru_element_unlocked s = Done (tt, s') ∧
        rep s' al ∧
        g_cache_current_size s'
        = size_sub (g_cache_current_size s) (e_len x) ∧
        heap s' !! e_ptr x = None ∧
        g_cache_map s' !! e_key x = None ∧
        heap_buffers s' = (heap_buffers s - 2)%nat ∧
        g_cache_mutex s' = g_cache_mutex s.
Proof.
  intros Hrep.
  destruct (remove_lru_spec _ _ _ Hrep) as (s' & Hrun & Hrep' & Hsz & Hmu).
  exists s'. split_and!; try done.
  - apply not_elem_of_dom. rewrite (rep_dom _ _ Hrep'), elem_of_list_to_set.
    pose proof (linked_nodup _ _ (rep_linked _ _ Hrep)) as Hnd.
    rewrite fmap_app in Hnd. apply NoDup_app in Hnd as (_ & Hnd & _).
    intros Hin. apply (Hnd _ Hin). by left.
  - rewrite (rep_map _ _ Hrep'). apply index_of_lookup_None.
    pose proof (rep_keys _ _ Hrep) as Hnd.
    rewrite fmap_app in Hnd. apply NoDup_app in Hnd as (_ & Hnd & _).
    intros Hin. apply (Hnd _ Hin). by left.
  - rewrite (rep_buffers _ _ Hrep'), (rep_buffers _ _ Hrep), length_app.
    simpl. lia.
Qed.

Lemma X3_witness :
  rep state_ba ([entry_b] ++ [entry_a]) ∧
  ∃ s', remove_lru_element_unlocked state_ba = Done (tt, s') ∧
        rep s' [entry_b] ∧
        g_cache_current_size s' = size_sub 90 30 ∧
        heap s' !! 1%positive = None ∧
        g_cache_map s' !! "a" = None ∧
        heap_buffers s' = (4 - 2)%nat ∧
        g_cache_mutex s' = false.
Proof.
  split; [apply Inv_state_ba|].
  apply (X3_remove_lru_element state_ba [entry_b] entry_a).
  apply Inv_state_ba.
Defined.

(** X4. On an empty recency list [remove_lru_element_unlocked] returns
    without any effect, so the eviction loop makes no progress there:
    if [current_size + length] exceeds the capacity while the list is
    empty, the loop condition stays true and the loop exhausts every
    bound on its iterations. *)
Theorem X4_eviction_of_empty_list_makes_no_progress s length :
  g_cache_tail s = None →
  MAX_CACHE_SIZE < size_add (g_cache_current_size s) length →
  remove_lru_element_unlocked s = Done (tt, s) ∧
  ∀ fuel, evict_loop fuel length s = OutOfFuel.
Proof.
  intros Ht Hc. split; [by apply remove_lru_empty|].
  apply Z.ltb_lt in Hc.
  induction fuel as [|fuel IH]; simpl; rewrite Hc; [done|].
  by rewrite (bind_Done _ _ _ _ _ (remove_lru_empty _ Ht)).
Qed.

Lemma X4_witness :
  g_cache_tail (with_current_size 100 cache_init) = None ∧
  MAX_CACHE_SIZE < size_add 100 1 ∧
  remove_lru_element_unlocked (with_current_size 100 cache_init)
  = Done (tt, with_current_size 100 cache_init) ∧
  ∀ fuel, evict_loop fuel 1 (with_current_size 100 cache_init) = OutOfFuel.
Proof.
  split; [reflexivity|]. split; [by vm_compute|].
  apply (X4_eviction_of_empty_list_makes_no_progress
           (with_current_size 100 cache_init) 1).
  - reflexivity.
  - by vm_compute.
Defined.

(** X5. [cache_find] is idempotent: a second [cache_find] on the same
    key returns the same result and leaves the state exactly as the
    first one left it. A [cache_find] on the key of the most recently
    used entry changes nothing at all. *)
Theorem X5_cache_find_is_idempotent s al k :
  Inv s al →
  (∃ r s', cache_find (Some k) s = Done (r, s') ∧
           cache_find (Some k) s' = Done (r, s')) ∧
  (∀ x bl, al = x :: bl →
     cache_find (Some (e_key x)) s = Done (Some (e_ptr x), s)).
Proof.
  intros HInv. split; [by apply (cache_find_idem s al)|].
  intros x bl ->.
  destruct (cache_find_hit s [] x bl HInv) as (s1 & Hrun & HInv1 & _).
  rewrite Hrun. by rewrite (Inv_state_unique _ _ _ HInv HInv1).
Qed.

Lemma X5_witness :
  Inv state_ba [entry_b; entry_a] ∧
  (∃ r s', cache_find (Some "a") state_ba = Done (r, s') ∧
           cache_find (Some "a") s' = Done (r, s')) ∧
  (∀ x bl, [entry_b; entry_a] = x :: bl →
     cache_find (Some (e_key x)) state_ba = Done (Some (e_ptr x), state_ba)).
Proof.
  split; [apply Inv_state_ba|].
  apply (X5_cache_find_is_idempotent state_ba [entry_b; entry_a] "a").
  apply Inv_state_ba.
Defined.





(** X8. An insertion that fits evicts nothing. When the sizes of the
    cached entries and [length] are within the capacity, a valid
    [cache_add] of an absent key allocates one struct, at an address
    that was free, and two buffers, adds [length] to [current_size],
    and leaves every entry that was cached in the index, at the same
    address and with the same payload. *)
Theorem X8_insert_that_fits_evicts_nothing s al fuel k d length :
  Inv s al → k ∉ e_key <$> al →
  0 < length ≤ MAX_CACHE_SIZE → length ≤ Z.of_nat (List.length d) →
  (List.length al ≤ fuel)%nat →
  total al + length ≤ MAX_CACHE_SIZE →
  ∃ p s',
    cache_add fuel all_ok (Some k) (Some d) length s = Done (tt, s') ∧
    Inv s' (mk_entry p k (take (Z.to_nat length) d) :: al) ∧
    heap s !! p = None ∧
    g_cache_current_size s' = g_cache_current_size s + length ∧
    heap_buffers s' = (heap_buffers s + 2)%nat ∧
    ∀ x, x ∈ al →
      g_cache_map s' !! e_key x = Some (e_ptr x) ∧
      payload_of s' (e_ptr x) = Some (Live (e_bytes x)).
Proof.
  intros HInv Hk Hlen Hd Hfuel Hfit.
  destruct (cache_add_insert_ok _ _ _ _ _ _ HInv Hk Hlen Hd Hfuel)
    as (kept & ev & p & s' & -> & Hrun & HInv' & _ & Hmin).
  assert (ev = []) as ->.
  { apply (no_eviction_when_fits kept ev length); [|done].
    intros ev1 y ev2 E. by apply (Hmin ev1 y ev2). }
  rewrite app_nil_r in *.
  exists p, s'. split_and!; try done.
  - apply not_elem_of_dom.
    rewrite (rep_dom _ _ (inv_rep _ _ HInv)), elem_of_list_to_set.
    pose proof (linked_nodup _ _ (rep_linked _ _ (inv_rep _ _ HInv'))) as Hnd.
    simpl in Hnd. by apply NoDup_cons in Hnd as [Hp _].
  - rewrite (inv_size _ _ HInv'), (inv_size _ _ HInv). simpl.
    unfold e_len at 1. simpl. rewrite take_length_Z by lia. lia.
  - rewrite (rep_buffers _ _ (inv_rep _ _ HInv')),
      (rep_buffers _ _ (inv_rep _ _ HInv)). simpl. lia.
  - intros x Hx. apply (Inv_entry_found _ _ _ HInv'). by right.
Qed.

Lemma X8_witness :
  Inv state_ba [entry_b; entry_a] ∧
  ∃ p s',
    cache_add 2 all_ok (Some "c") (Some (payload 10)) 10 state_ba
    = Done (tt, s') ∧
    Inv s' (mk_entry p "c" (take (Z.to_nat 10) (payload 10))
              :: [entry_b; entry_a]) ∧
    heap state_ba !! p = None ∧
    g_cache_current_size s' = 90 + 10 ∧
    heap_buffers s' = (4 + 2)%nat ∧
    ∀ x, x ∈ [entry_b; entry_a] →
      g_cache_map s' !! e_key x = Some (e_ptr x) ∧
      payload_of s' (e_ptr x) = Some (Live (e_bytes x)).
Proof.
  split; [apply Inv_state_ba|].
  apply (X8_insert_that_fits_evicts_nothing state_ba [entry_b; entry_a] 2 "c"
           (payload 10) 10).
  - apply Inv_state_ba.
  - not_in_list.
  - unfold MAX_CACHE_SIZE. lia.
  - simpl. lia.
  - simpl. lia.
  - by vm_compute.
Defined.



(** X10. Lock discipline, from any state whatever: a [cache_find] with
    a key and a [cache_add] with valid arguments release the mutex on
    every path on which they return, and both block, without any
    effect, when the mutex is held. *)
Theorem X10_lock_discipline fuel a k d length :
  0 < length ≤ MAX_CACHE_SIZE →
  releases (cache_find (Some k)) ∧
  releases (cache_add fuel a (Some k) (Some d) length) ∧
  (∀ s, g_cache_mutex s = true →
     cache_find (Some k) s = Blocked ∧
     cache_add fuel a (Some k) (Some d) length s = Blocked).
Proof.
  intros Hlen. split_and!.
  - apply cache_find_releases.
  - by apply cache_add_releases.
  - intros s Hs. split.
    + by apply cache_find_acquires.
    + by apply cache_add_acquires.
Qed.

Lemma X10_witness :
  releases (cache_find (Some "a")) ∧
  releases (cache_add 2 all_ok (Some "a") (Some (payload 50)) 50) ∧
  (∀ s, g_cache_mutex s = true →
     cache_find (Some "a") s = Blocked ∧
     cache_add 2 all_ok (Some "a") (Some (payload 50)) 50 s = Blocked).
Proof.
  apply (X10_lock_discipline 2 all_ok "a" (payload 50) 50).
  unfold MAX_CACHE_SIZE. lia.
Defined.

(** X11. Every run of a client keeps the invariant. From a state that
    satisfies the invariant, a sequence of [cache_find] and
    [cache_add] calls with well-formed arguments, whatever the
    allocator returns, either comes back to a state that satisfies the
    invariant, with at most [MAX_CACHE_SIZE] entries, or has undefined
    behaviour; it never blocks, and a bound of [MAX_CACHE_SIZE]
    iterations is never exhausted by an eviction loop. *)
Theorem X11_api_runs_keep_invariant fuel cs s al :
  Inv s al → Forall call_ok cs → (Z.to_nat MAX_CACHE_SIZE ≤ fuel)%nat →
  (∃ s' al',
     run_calls fuel cs s = Done (tt, s') ∧ Inv s' al' ∧
     (List.length al' ≤ Z.to_nat MAX_CACHE_SIZE)%nat) ∨
  run_calls fuel cs s = Undefined.
Proof.
  intros HInv Hok Hfuel.
  destruct (run_calls_total fuel cs s al HInv Hok Hfuel)
    as [(s' & al' & Hrun & HInv')|Hund]; [left|by right].
  exists s', al'. split_and!; [done|done|]. by apply (Inv_length s').
Qed.

Lemma X11_witness :
  Inv cache_init [] ∧ Forall call_ok calls_mixed ∧
  ((∃ s' al',
      run_calls 100 calls_mixed cache_init = Done (tt, s') ∧ Inv s' al' ∧
      (List.length al' ≤ Z.to_nat MAX_CACHE_SIZE)%nat) ∨
   run_calls 100 calls_mixed cache_init = Undefined).
Proof.
  assert (Hok : Forall call_ok calls_mixed).
  { repeat constructor; simpl; lia. }
  split_and!; [apply Inv_cache_init|exact Hok|].
  apply (X11_api_runs_keep_invariant 100 calls_mixed cache_init []).
  - apply Inv_cache_init.
  - exact Hok.
  - by vm_compute.
Defined.

(** X12. [cache_destroy] frees everything: from a state that satisfies
    the invariant it returns with no live struct and no live buffer,
    [head] and [tail] null, [current_size] zero and the mutex
    released; a [cache_init] that follows gives the empty cache that
    [cache_init] gives at startup. *)
Theorem X12_cache_destroy_frees_everything s al :
  Inv s al →
  ∃ s', cache_destroy s = Done (tt, s') ∧
        heap s' = ∅ ∧ heap_buffers s' = 0%nat ∧
        g_cache_head s' = None ∧ g_cache_tail s' = None ∧
        g_cache_current_size s' = 0 ∧ g_cache_mutex s' = false ∧
        cache_init_at true s' = Some cache_init.
Proof.
  intros [Hrep Hpos Hsz Hcap Hmu]. unfold cache_destroy.
  rewrite (bind_Done _ _ _ _ _ (mutex_lock_Done _ Hmu)).
  destruct (map_destroy_spec (with_mutex true s) al)
    as (s1 & Hrun & Hh & Hb & Hm & _); [by apply (rep_ext s)|].
  rewrite (bind_Done _ _ _ _ _ Hrun).
  eexists. split; [reflexivity|]. simpl.
  split_and!; try done.
  unfold cache_init_at, cache_init. simpl. by rewrite Hh, Hb.
Qed.

Lemma X12_witness :
  Inv state_ba [entry_b; entry_a] ∧
  ∃ s', cache_destroy state_ba = Done (tt, s') ∧
        heap s' = ∅ ∧ heap_buffers s' = 0%nat ∧
        g_cache_head s' = None ∧ g_cache_tail s' = None ∧
        g_cache_current_size s' = 0 ∧ g_cache_mutex s' = false ∧
        cache_init_at true s' = Some cache_init.
Proof.
  split; [apply Inv_state_ba|].
  apply (X12_cache_destroy_frees_everything state_ba [entry_b; entry_a]).
  apply Inv_state_ba.
Defined.



(** X14. The update path of [cache_add] when the updated entry [x]
    survives the eviction loop and [malloc] fails: the call returns
    with [x] erased, its struct freed and its key gone from the index,
    so that [cache_find] no longer finds it; the entries in front of
    [x] are kept, and [current_size] is the sum of the sizes of the
    entries that are left. *)
Theorem X14_update_allocation_failure s al x bl fuel a d length :
  Inv s (al ++ x :: bl) →
  0 < length ≤ MAX_CACHE_SIZE →
  (List.length (al ++ x :: bl) ≤ fuel)%nat →
  total al + length ≤ MAX_CACHE_SIZE →
  malloc_ok a = false →
  ∃ kept evicted s',
    bl = kept ++ evicted ∧
    cache_add fuel a (Some (e_key x)) (Some d) length s = Done (tt, s') ∧
    Inv s' (al ++ kept) ∧
    heap s' !! e_ptr x = None ∧
    g_cache_map s' !! e_key x = None ∧
    cache_find (Some (e_key x)) s' = Done (None, s') ∧
    g_cache_current_size s' = total al + total kept.
Proof.
  intros HInv Hlen Hfuel Hfit Ha.
  destruct (cache_add_update_fail_erases _ _ _ _ fuel a d _
              HInv Hlen Hfuel Hfit Ha)
    as (kept & ev & s' & -> & Hrun & HInv' & Hm & Hfind & Hsz).
  exists kept, ev, s'. split_and!; try done.
  - apply not_elem_of_dom.
    rewrite (rep_dom _ _ (inv_rep _ _ HInv')), elem_of_list_to_set.
    pose proof (linked_nodup _ _ (rep_linked _ _ (inv_rep _ _ HInv))) as Hnd.
    apply (NoDup_remove_middle e_ptr) in Hnd as [_ Hnd].
    revert Hnd. rewrite !fmap_app, !elem_of_app. tauto.
  - by rewrite Hsz, total_app.
Qed.

Lemma X14_witness :
  Inv state_ba ([] ++ entry_b :: [entry_a]) ∧
  ∃ kept evicted s',
    [entry_a] = kept ++ evicted ∧
    cache_add 2 (mk_alloc_results true true false)
      (Some "b") (Some (payload 70)) 70 state_ba = Done (tt, s') ∧
    Inv s' ([] ++ kept) ∧
    heap s' !! 2%positive = None ∧
    g_cache_map s' !! "b" = None ∧
    cache_find (Some "b") s' = Done (None, s') ∧
    g_cache_current_size s' = total [] + total kept.
Proof.
  split; [apply Inv_state_ba|].
  apply (X14_update_allocation_failure state_ba [] entry_b [entry_a] 2
           (mk_alloc_results true true false) (payload 70) 70).
  - apply Inv_state_ba.
  - unfold MAX_CACHE_SIZE. lia.
  - simpl. lia.
  - by vm_compute.
  - reflexivity.
Defined.










